(** * tusd: storage decorators and capability-driven routing

    A shallow embedding of three pieces of the tusd upload server:

    - [memorylocker]: the in-memory lock table ([memorylocker.go]);
    - [limitedstore]: the capacity-bounded store that evicts the largest
      uploads first ([limitedstore.go]);
    - [tusd]: the shared vocabulary of the [tusd] package and the routed
      handler's endpoint assembly ([handler.go]).

    Go maps with string keys are [gmap string _]; [int64] values are
    integers of [Z] whose arithmetic wraps around explicitly; a Go [error]
    result is [option error] with [None] for [nil]; a method on a pointer
    receiver takes the receiver's state and returns the new state next to
    its result. *)

From Stdlib Require Import ZArith Lia.
From stdpp Require Import base option list sorting strings gmap fin_maps.

Local Open Scope Z_scope.

(** ** The [tusd] package: errors, upload records, data store interfaces *)

Module tusd.

(** The two errors of the [tusd] package that the decorators return
    themselves, and the errors that a backend makes up. *)
Inductive error : Type :=
  | ErrNotImplemented
  | ErrFileLocked
  | ErrBackend (msg : string).

(** The outcome of a Go function returning [(T, error)]. *)
Inductive result (T : Type) : Type :=
  | Ok (v : T)
  | Err (e : error).
Arguments Ok {T} v.
Arguments Err {T} e.

(** [tusd.FileInfo]: the decorators read the declared size only. *)
Record FileInfo : Type := mkFileInfo {
  ID : string;
  Size : Z;
}.

(** What an [io.Reader] yields when it is drained. *)
Definition Reader : Type := list Byte.byte.

(** A method with a pointer receiver whose state has type [B]. *)
Definition method (B A : Type) : Type := B -> A * B.

(** The method table of a value held in a [tusd.TerminaterDataStore]
    interface: [NewUpload] and [Terminate] belong to the static type, the
    other methods are there exactly when the dynamic type has them, which
    is what the type assertions [v.(tusd.GetReaderDataStore)],
    [v.(tusd.LockerDataStore)], [v.(tusd.FinisherDataStore)] and
    [v.(tusd.ConcaterDataStore)] test.  [LockerDataStore] asks for both
    [LockUpload] and [UnlockUpload], hence the pair. *)
Record TerminaterDataStore (B : Type) : Type := mkTerminaterDataStore {
  ds_NewUpload : FileInfo -> method B (result string);
  ds_Terminate : string -> method B (option error);
  ds_GetReader : option (string -> method B (result Reader));
  ds_Locker : option ((string -> method B (option error)) *
                      (string -> method B (option error)));
  ds_FinishUpload : option (string -> method B (option error));
  ds_ConcatUploads : option (string -> list string -> method B (option error));
}.
Arguments ds_NewUpload {B} _ _ _.
Arguments ds_Terminate {B} _ _ _.
Arguments ds_GetReader {B} _.
Arguments ds_Locker {B} _.
Arguments ds_FinishUpload {B} _.
Arguments ds_ConcatUploads {B} _.

(** *** [handler.go]: the routed handler *)

(** Which optional methods the dynamic type of a [DataStore] value has. *)
Record methodSet : Type := mkMethodSet {
  hasTerminate : bool;
  hasGetReader : bool;
  hasLocker : bool;
  hasFinishUpload : bool;
  hasConcatUploads : bool;
}.

(** [tusd.Config]; [DataStore] is an interface value, [None] when nil. *)
Record Config : Type := mkConfig {
  DataStore : option methodSet;
  MaxSize : Z;
}.

(** [_, ok := v.(TerminaterDataStore)] and [_, ok := v.(GetReaderDataStore)]:
    a nil interface value satisfies no type assertion. *)
Definition is_TerminaterDataStore (v : option methodSet) : bool :=
  match v with
  | Some ms => hasTerminate ms
  | None => false
  end.

Definition is_GetReaderDataStore (v : option methodSet) : bool :=
  match v with
  | Some ms => hasGetReader ms
  | None => false
  end.

(** The methods of [UnroutedHandler] that are given to the router. *)
Inductive HandlerFunc : Type :=
  | PostFile
  | HeadFile
  | PatchFile
  | DelFile
  | GetFile.

(** A registration in the [pat] router: HTTP method, pattern, handler. *)
Record route : Type := mkRoute {
  verb : string;
  pattern : string;
  target : HandlerFunc;
}.

Definition PatternServeMux : Type := list route.

Definition pat_New : PatternServeMux := [].

Definition mux_Add (meth pat : string) (h : HandlerFunc)
    (mux : PatternServeMux) : PatternServeMux :=
  mux ++ [{| verb := meth; pattern := pat; target := h |}].

Definition mux_Post := mux_Add "POST"%string.
Definition mux_Head := mux_Add "HEAD"%string.
Definition mux_Del := mux_Add "DELETE"%string.
Definition mux_Get := mux_Add "GET"%string.


(** The handlers registered for an HTTP method, in registration order. *)
Definition handlersFor (meth : string) (mux : PatternServeMux)
  : list HandlerFunc :=
  target <$> filter (fun r => verb r = meth) mux.


(** The route table that the spec asks for, given which of the two
    capabilities the data store has. *)
Definition endpoints (terminater getReader : bool) : PatternServeMux :=
  [ {| verb := "POST"; pattern := ""; target := PostFile |};
    {| verb := "HEAD"; pattern := ":id"; target := HeadFile |};
    {| verb := "PATCH"; pattern := ":id"; target := PatchFile |} ]
  ++ (if terminater
      then [ {| verb := "DELETE"; pattern := ":id"; target := DelFile |} ]
      else [])
  ++ (if getReader
      then [ {| verb := "GET"; pattern := ":id"; target := GetFile |} ]
      else []).

Section Handler.

(** [UnroutedHandler] and its constructor are declared in another file
    of the package; so are requests, responses and what the handler's
    middleware around a router answers. *)
Context {UnroutedHandler Request Response : Type}.
Variable NewUnroutedHandler : Config -> result UnroutedHandler.
Variable serve : UnroutedHandler -> PatternServeMux -> Request -> Response.

(** [Handler]; the [CompleteUploads] channel is the unrouted handler's. *)
Record Handler : Type := mkHandler {
  unroutedHandler : UnroutedHandler;
  routeHandler : PatternServeMux;
}.

Definition NewHandler (config : Config) : result Handler :=
  match NewUnroutedHandler config with
  | Err err => Err err
  | Ok handler =>
      let mux := pat_New in
      let mux := mux_Post "" PostFile mux in
      let mux := mux_Head ":id" HeadFile mux in
      let mux := mux_Add "PATCH" ":id" PatchFile mux in
      let mux :=
        if is_TerminaterDataStore (DataStore config)
        then mux_Del ":id" DelFile mux else mux in
      let mux :=
        if is_GetReaderDataStore (DataStore config)
        then mux_Get ":id" GetFile mux else mux in
      Ok {| unroutedHandler := handler; routeHandler := mux |}
  end.


End Handler.

Arguments Handler UnroutedHandler : clear implicits.

End tusd.

Import tusd.

(** ** [memorylocker]: the lock table *)

Module memorylocker.

Section MemoryLocker.

(** State of the wrapped [tusd.DataStore]. *)
Context {B : Type}.

Record MemoryLocker : Type := mkMemoryLocker {
  DataStore : B;
  locks : gmap string bool;
}.

Definition NewMemoryLocker (store : B) : MemoryLocker :=
  {| DataStore := store; locks := ∅ |}.

(** [if _, ok := locker.locks[id]; ok { return ErrFileLocked }] *)
Definition LockUpload (id : string) (locker : MemoryLocker)
  : option error * MemoryLocker :=
  match locks locker !! id with
  | Some _ => (Some ErrFileLocked, locker)
  | None =>
      (None, {| DataStore := DataStore locker;
                locks := <[id := true]> (locks locker) |})
  end.

(** [delete(locker.locks, id); return nil] *)
Definition UnlockUpload (id : string) (locker : MemoryLocker)
  : option error * MemoryLocker :=
  (None, {| DataStore := DataStore locker;
            locks := delete id (locks locker) |}).

End MemoryLocker.

Arguments MemoryLocker B : clear implicits.

(** *** Sequences of lock and unlock calls *)

Inductive call : Type :=
  | Lock (id : string)
  | Unlock (id : string).

Section Calls.

Context {B : Type}.

Definition perform (c : call) (locker : MemoryLocker B)
  : option error * MemoryLocker B :=
  match c with
  | Lock id => LockUpload id locker
  | Unlock id => UnlockUpload id locker
  end.

(** The locker after the calls of [cs], whatever each of them returned. *)
Definition performAll (cs : list call) (locker : MemoryLocker B)
  : MemoryLocker B :=
  foldl (fun l c => (perform c l).2) locker cs.

End Calls.

(** The optional methods of [*MemoryLocker]: the struct embeds the
    interface [tusd.DataStore], so it gets that interface's methods and no
    other method of the wrapped value, and it declares [LockUpload] and
    [UnlockUpload]. *)
Definition methods : methodSet :=
  {| hasTerminate := false; hasGetReader := false; hasLocker := true;
     hasFinishUpload := false; hasConcatUploads := false |}.

End memorylocker.

(** ** [int64] arithmetic *)

Definition wrap64 (z : Z) : Z := (z + 2 ^ 63) mod 2 ^ 64 - 2 ^ 63.

Definition is_int64 (z : Z) : Prop := - 2 ^ 63 <= z < 2 ^ 63.

(** ** [limitedstore]: the capacity-bounded store *)

Module limitedstore.

(** [pair] and [pairlist], with the [sort.Interface] methods of [pairlist]
    read on elements instead of indices. *)
Record pair : Type := mkPair {
  key : string;
  value : Z;
}.

Definition pairlist : Type := list pair.

(** [p[i].value < p[j].value] *)
Definition Less (a b : pair) : bool := value a <? value b.

(** [sort.Reverse]: the order whose [Less(i, j)] is the inner [Less(j, i)]. *)
Definition Reverse (less : pair -> pair -> bool) : pair -> pair -> bool :=
  fun a b => less b a.

(** The slice filled by [for u, h := range store.uploads].  Go leaves the
    iteration order of a map open, and so does [map_to_list]; nothing
    below depends on it. *)
Definition rangeUploads (uploads : gmap string Z) : pairlist :=
  (fun uh => {| key := uh.1; value := uh.2 |}) <$> map_to_list uploads.

(** The sum of the declared sizes recorded in the map: over the integers,
    and as the [int64] that adding them up in Go gives. *)
Definition exactSum (uploads : gmap string Z) : Z :=
  map_fold (fun _ h acc => h + acc) 0 uploads.

Definition sumSizes (uploads : gmap string Z) : Z :=
  wrap64 (exactSum uploads).

(** What [sort.Sort] asks of a [Less]: a transitive ordering. *)
Record transitiveOrdering (less : pair -> pair -> bool) : Prop := {
  less_irrefl : forall a, less a a = false;
  less_trans : forall a b c,
    less a b = true -> less b c = true -> less a c = true;
  less_negtrans : forall a b c,
    less a b = false -> less b c = false -> less a c = false;
}.

(** Insertion sort, one function that behaves as [sort.Sort] is
    documented to. *)
Fixpoint insertSorted (less : pair -> pair -> bool) (x : pair)
    (l : pairlist) : pairlist :=
  match l with
  | [] => [x]
  | y :: l' => if less x y then x :: y :: l' else y :: insertSorted less x l'
  end.

Definition insertionSort (less : pair -> pair -> bool) (l : pairlist)
  : pairlist :=
  foldr (insertSorted less) [] l.

Section LimitedStore.

(** State and method table of the wrapped data store. *)
Context {B : Type} (ds : TerminaterDataStore B).

(** [sort.Sort], applied to a slice and the [Less] it is to use. *)
Variable sort_Sort : (pair -> pair -> bool) -> pairlist -> pairlist.

Record LimitedStore : Type := mkLimitedStore {
  StoreSize : Z;
  dataStore : B;
  uploads : gmap string Z;
  usedSize : Z;
}.

Definition New (storeSize : Z) (backend : B) : LimitedStore :=
  {| StoreSize := storeSize; dataStore := backend;
     uploads := ∅; usedSize := 0 |}.

(** [(store.usedSize + size) <= store.StoreSize] *)
Definition fits (size : Z) (store : LimitedStore) : bool :=
  wrap64 (usedSize store + size) <=? StoreSize store.

Definition terminate (id : string) (store : LimitedStore)
  : option error * LimitedStore :=
  match ds_Terminate ds id (dataStore store) with
  | (Some err, b) =>
      (Some err, {| StoreSize := StoreSize store; dataStore := b;
                    uploads := uploads store; usedSize := usedSize store |})
  | (None, b) =>
      let size := default 0 (uploads store !! id) in
      (None, {| StoreSize := StoreSize store; dataStore := b;
                uploads := delete id (uploads store);
                usedSize := wrap64 (usedSize store - size) |})
  end.

(** The [for _, k := range sortedUploads] loop of [ensureSpace]. *)
Fixpoint evict (sortedUploads : pairlist) (size : Z) (store : LimitedStore)
  : option error * LimitedStore :=
  match sortedUploads with
  | [] => (None, store)
  | k :: rest =>
      match terminate (key k) store with
      | (Some err, store') => (Some err, store')
      | (None, store') =>
          if fits size store' then (None, store')
          else evict rest size store'
      end
  end.

Definition sortedUploads (store : LimitedStore) : pairlist :=
  sort_Sort (Reverse Less) (rangeUploads (uploads store)).

Definition ensureSpace (size : Z) (store : LimitedStore)
  : option error * LimitedStore :=
  if fits size store then (None, store)
  else evict (sortedUploads store) size store.

(** The part of [NewUpload] after [ensureSpace] has returned [nil]. *)
Definition delegate (info : FileInfo) (store : LimitedStore)
  : result string * LimitedStore :=
  match ds_NewUpload ds info (dataStore store) with
  | (Err err, b) =>
      (Err err, {| StoreSize := StoreSize store; dataStore := b;
                   uploads := uploads store; usedSize := usedSize store |})
  | (Ok id, b) =>
      (Ok id, {| StoreSize := StoreSize store; dataStore := b;
                 uploads := <[id := Size info]> (uploads store);
                 usedSize := wrap64 (usedSize store + Size info) |})
  end.

(** [store.mutex] is held from the first to the last statement of
    [NewUpload] and of [Terminate], so a call is one step on the store. *)
Definition NewUpload (info : FileInfo) (store : LimitedStore)
  : result string * LimitedStore :=
  match ensureSpace (Size info) store with
  | (Some err, store') => (Err err, store')
  | (None, store') => delegate info store'
  end.

Definition Terminate (id : string) (store : LimitedStore)
  : option error * LimitedStore :=
  terminate id store.

(** A pass-through call changes the wrapped store's state only. *)
Definition forward {A : Type} (m : method B A) (store : LimitedStore)
  : A * LimitedStore :=
  let '(r, b) := m (dataStore store) in
  (r, {| StoreSize := StoreSize store; dataStore := b;
         uploads := uploads store; usedSize := usedSize store |}).

Definition GetReader (id : string) (store : LimitedStore)
  : result Reader * LimitedStore :=
  match ds_GetReader ds with
  | Some getReader => forward (getReader id) store
  | None => (Err ErrNotImplemented, store)
  end.

Definition LockUpload (id : string) (store : LimitedStore)
  : option error * LimitedStore :=
  match ds_Locker ds with
  | Some (lockUpload, _) => forward (lockUpload id) store
  | None => (None, store)
  end.

Definition UnlockUpload (id : string) (store : LimitedStore)
  : option error * LimitedStore :=
  match ds_Locker ds with
  | Some (_, unlockUpload) => forward (unlockUpload id) store
  | None => (None, store)
  end.

Definition FinishUpload (id : string) (store : LimitedStore)
  : option error * LimitedStore :=
  match ds_FinishUpload ds with
  | Some finishUpload => forward (finishUpload id) store
  | None => (None, store)
  end.

Definition ConcatUploads (dest : string) (src : list string)
    (store : LimitedStore) : option error * LimitedStore :=
  match ds_ConcatUploads ds with
  | Some concatUploads => forward (concatUploads dest src) store
  | None => (Some ErrNotImplemented, store)
  end.

(** *** Sequences of calls *)

Inductive op : Type :=
  | OpNewUpload (info : FileInfo)
  | OpTerminate (id : string).

Definition step (o : op) (store : LimitedStore) : LimitedStore :=
  match o with
  | OpNewUpload info => (NewUpload info store).2
  | OpTerminate id => (Terminate id store).2
  end.

(** The call returns without error, which it does exactly when every
    backend call it makes succeeds. *)
Definition succeeds (o : op) (store : LimitedStore) : Prop :=
  match o with
  | OpNewUpload info => exists id, (NewUpload info store).1 = Ok id
  | OpTerminate id => (Terminate id store).1 = None
  end.

(** The id that the backend hands out is not a tracked one. *)
Definition freshId (o : op) (store : LimitedStore) : Prop :=
  match o with
  | OpNewUpload info =>
      forall id, (NewUpload info store).1 = Ok id -> uploads store !! id = None
  | OpTerminate _ => True
  end.

Fixpoint wellBehaved (ops : list op) (store : LimitedStore) : Prop :=
  match ops with
  | [] => True
  | o :: ops' =>
      succeeds o store /\ freshId o store /\ wellBehaved ops' (step o store)
  end.

(** The states after each call of the sequence. *)
Fixpoint run (ops : list op) (store : LimitedStore) : list LimitedStore :=
  match ops with
  | [] => []
  | o :: ops' => step o store :: run ops' (step o store)
  end.

(** The capacity accounting invariant. *)
Definition accounted (store : LimitedStore) : Prop :=
  usedSize store = sumSizes (uploads store).

(** *** Runs of the eviction loop *)

(** The loop terminates the uploads of [gone] one after the other, each
    with success, and finds after each that there is still no room. *)
Fixpoint keepsEvicting (size : Z) (gone : pairlist)
    (store store1 : LimitedStore) : Prop :=
  match gone with
  | [] => store1 = store
  | k :: gone' =>
      exists store0,
        terminate (key k) store = (None, store0) /\
        fits size store0 = false /\
        keepsEvicting size gone' store0 store1
  end.

(** The bookkeeping once the uploads of [gone] are removed from it. *)
Definition without (gone : pairlist) (store : LimitedStore)
  : gmap string Z * Z :=
  (foldl (fun m k => delete (key k) m) (uploads store) gone,
   foldl (fun used k => wrap64 (used - value k)) (usedSize store) gone).

(** [call] hands the request to the wrapped store's method [m]: result
    and new state are the method's, the bookkeeping stays as it is. *)
Definition forwards {A : Type} (call : LimitedStore -> A * LimitedStore)
    (m : method B A) (store : LimitedStore) : Prop :=
  (call store).1 = (m (dataStore store)).1 /\
  dataStore (call store).2 = (m (dataStore store)).2 /\
  StoreSize (call store).2 = StoreSize store /\
  uploads (call store).2 = uploads store /\
  usedSize (call store).2 = usedSize store.

End LimitedStore.

Arguments LimitedStore B : clear implicits.

(** *** A data store to run the code on *)

(** It hands out the ids "a", "b", "c", ... in turn, keeps a journal of
    the calls it receives and refuses to terminate the uploads of
    [pinned]. *)
Record demoState : Type := mkDemoState {
  issued : nat;
  journal : list string;
}.

Definition demoId (n : nat) : string :=
  String (Ascii.ascii_of_nat (97 + n)) EmptyString.

Definition demoLog (call : string) (st : demoState) : demoState :=
  {| issued := issued st; journal := journal st ++ [call] |}.

Definition demoNewUpload (info : FileInfo) : method demoState (result string) :=
  fun st =>
    (Ok (demoId (issued st)),
     {| issued := S (issued st); journal := journal st ++ ["NewUpload"%string] |}).

Definition demoTerminate (pinned : list string) (id : string)
  : method demoState (option error) :=
  fun st =>
    (if bool_decide (id ∈ pinned) then Some (ErrBackend "pinned") else None,
     demoLog ("Terminate " +:+ id) st).

Definition demoStore (pinned : list string) : TerminaterDataStore demoState :=
  {| ds_NewUpload := demoNewUpload;
     ds_Terminate := demoTerminate pinned;
     ds_GetReader := None;
     ds_Locker := None;
     ds_FinishUpload := None;
     ds_ConcatUploads := None |}.

Definition demoStoreFull : TerminaterDataStore demoState :=
  {| ds_NewUpload := demoNewUpload;
     ds_Terminate := demoTerminate [];
     ds_GetReader :=
       Some (fun id st => (Ok [], demoLog ("GetReader " +:+ id) st));
     ds_Locker :=
       Some (fun id st => (None, demoLog ("LockUpload " +:+ id) st),
             fun id st => (None, demoLog ("UnlockUpload " +:+ id) st));
     ds_FinishUpload :=
       Some (fun id st => (None, demoLog ("FinishUpload " +:+ id) st));
     ds_ConcatUploads :=
       Some (fun dest src st =>
               (Some (ErrBackend "partial"), demoLog ("ConcatUploads " +:+ dest) st)) |}.

Definition demoInit : demoState := {| issued := 0; journal := [] |}.

(** The uploads of the spec's eviction example; a store over its capacity
    with one upload; a store whose second largest upload is pinned. *)
Definition demoTracked : LimitedStore demoState :=
  {| StoreSize := 40; dataStore := demoInit;
     uploads := list_to_map [("a"%string, 10); ("b"%string, 50);
                             ("c"%string, 30); ("d"%string, 5)];
     usedSize := 95 |}.

Definition demoSmall : LimitedStore demoState :=
  {| StoreSize := 5; dataStore := demoInit;
     uploads := {["a"%string := 10]}; usedSize := 10 |}.

Definition demoPinned : LimitedStore demoState :=
  {| StoreSize := 100; dataStore := demoInit;
     uploads := list_to_map [("a"%string, 60); ("b"%string, 50);
                             ("c"%string, 30)];
     usedSize := 140 |}.

(** *** [pairlist] as a [sort.Interface], on indices *)

Definition Len (p : pairlist) : Z := Z.of_nat (length p).

(** [p[i]]; an index out of range panics, which is [None]. *)
Definition index (p : pairlist) (i : Z) : option pair :=
  if bool_decide (0 <= i) then p !! Z.to_nat i else None.

(** [p[i], p[j] = p[j], p[i]] *)
Definition Swap (i j : Z) (p : pairlist) : option pairlist :=
  match index p i, index p j with
  | Some a, Some b => Some (<[Z.to_nat j := a]> (<[Z.to_nat i := b]> p))
  | _, _ => None
  end.

(** [p[i].value < p[j].value] *)
Definition LessAt (i j : Z) (p : pairlist) : option bool :=
  match index p i, index p j with
  | Some a, Some b => Some (Less a b)
  | _, _ => None
  end.

(** The optional methods of [*LimitedStore]: it embeds a
    [tusd.TerminaterDataStore] and declares [GetReader], [LockUpload],
    [UnlockUpload], [FinishUpload] and [ConcatUploads] itself. *)
Definition methods : methodSet :=
  {| hasTerminate := true; hasGetReader := true; hasLocker := true;
     hasFinishUpload := true; hasConcatUploads := true |}.

Section Sequences.

Context {B : Type} (ds : TerminaterDataStore B).
Variable sort_Sort : (pair -> pair -> bool) -> pairlist -> pairlist.

(** Every id that the backend hands out in the sequence is one that is
    not tracked, whether the calls succeed or not. *)
Fixpoint allFresh (ops : list op) (store : LimitedStore B) : Prop :=
  match ops with
  | [] => True
  | o :: ops' =>
      freshId ds sort_Sort o store /\
      allFresh ops' (step ds sort_Sort o store)
  end.

(** The backend's [Terminate] called on the ids of [ids], one after the
    other, up to the first call that fails. *)
Fixpoint backendTerminateAll (ids : list string) (b : B) : option error * B :=
  match ids with
  | [] => (None, b)
  | id :: ids' =>
      match ds_Terminate ds id b with
      | (Some err, b') => (Some err, b')
      | (None, b') => backendTerminateAll ids' b'
      end
  end.

(** The declared size of a [NewUpload] of the sequence is between 0 and
    [capacity]. *)
Definition sizeWithin (capacity : Z) (o : op) : Prop :=
  match o with
  | OpNewUpload info => 0 <= Size info <= capacity
  | OpTerminate _ => True
  end.

(** Sizes are not negative, [usedSize] is their sum over the integers,
    and it is within the capacity. *)
Definition withinCapacity (capacity : Z) (store : LimitedStore B) : Prop :=
  StoreSize store = capacity /\
  (forall id h, uploads store !! id = Some h -> 0 <= h) /\
  usedSize store = exactSum (uploads store) /\
  usedSize store <= capacity.

End Sequences.

End limitedstore.

(** * Properties *)

(** ** The lock table *)

Module MemoryLockerSpec.

Import memorylocker.

Section Facts.

Context {B : Type}.
Implicit Types (locker : MemoryLocker B) (id : string).

(** C5. [LockUpload] on an id that is in the lock table returns
  [ErrFileLocked] and leaves the locker as it is; on an id that is not in
  the table it returns [nil] and adds the id.  It returns at once in both
  cases, these being its only two outcomes.  So a second [LockUpload] of
  the same id right after a first one fails, and changes nothing. *)
Theorem LockUpload_fail_fast locker id :
(is_Some (locks locker !! id) ->
   LockUpload id locker = (Some ErrFileLocked, locker)) /\
(locks locker !! id = None ->
   LockUpload id locker =
     (None, {| DataStore := DataStore locker;
               locks := <[id := true]> (locks locker) |})) /\
((LockUpload id locker).1 = None \/
 (LockUpload id locker).1 = Some ErrFileLocked) /\
LockUpload id (LockUpload id locker).2 =
  (Some ErrFileLocked, (LockUpload id locker).2).
Proof.
unfold LockUpload. split; [| split; [| split]].
- intros [held Hheld]. now rewrite Hheld.
- intros Hfree. now rewrite Hfree.
- destruct (locks locker !! id); [right | left]; reflexivity.
- destruct (locks locker !! id) as [held|] eqn:Hid; cbn.
  + now rewrite Hid.
  + now rewrite lookup_insert_eq.
Qed.

(** C7. [UnlockUpload] returns [nil] for every id and every lock table.
  The table it leaves is the old one without the id: the id is no longer
  in it, every other id is held exactly as before, and when the id was
  not held the locker is unchanged. *)
Theorem UnlockUpload_never_fails locker id :
(UnlockUpload id locker).1 = None /\
DataStore (UnlockUpload id locker).2 = DataStore locker /\
locks (UnlockUpload id locker).2 !! id = None /\
(forall id', id' <> id ->
   locks (UnlockUpload id locker).2 !! id' = locks locker !! id') /\
(locks locker !! id = None -> UnlockUpload id locker = (None, locker)).
Proof.
unfold UnlockUpload; cbn. do 2 (split; [reflexivity |]).
split; [| split].
- apply lookup_delete_eq.
- intros id' Hne. now apply lookup_delete_ne.
- intros Hfree. rewrite delete_id by exact Hfree. now destruct locker.
Qed.

(** C10. From a lock table that does not hold the id, [LockUpload]
  succeeds, the [UnlockUpload] that follows succeeds, and the locker is
  then exactly what it was before the two calls. *)
Theorem LockUpload_UnlockUpload_roundtrip locker id :
locks locker !! id = None ->
exists locker1,
  LockUpload id locker = (None, locker1) /\
  UnlockUpload id locker1 = (None, locker).
Proof.
intros Hfree. unfold LockUpload. rewrite Hfree.
eexists; split; [reflexivity |].
unfold UnlockUpload; cbn.
rewrite delete_insert_id by exact Hfree. now destruct locker.
Qed.

End Facts.

(** The lock table that holds "x" only, and the empty one. *)
Lemma LockUpload_fail_fast_witness :
  (is_Some (locks (mkMemoryLocker () {["x"%string := true]}) !! "x"%string) /\
   LockUpload "x" (mkMemoryLocker () {["x"%string := true]}) =
     (Some ErrFileLocked, mkMemoryLocker () {["x"%string := true]})) /\
  (locks (NewMemoryLocker ()) !! "x"%string = None /\
   LockUpload "x" (NewMemoryLocker ()) =
     (None, mkMemoryLocker () (<["x"%string := true]> ∅))).
Proof.
  assert (Hheld : is_Some (locks (mkMemoryLocker () {["x"%string := true]})
                             !! "x"%string)) by (eexists; reflexivity).
  assert (Hfree : locks (NewMemoryLocker ()) !! "x"%string = None)
    by reflexivity.
  split; (split; [assumption |]).
  - exact (proj1 (LockUpload_fail_fast _ "x"%string) Hheld).
  - exact (proj1 (proj2 (LockUpload_fail_fast _ "x"%string)) Hfree).
Defined.

(** Unlocking in an empty table. *)
Lemma UnlockUpload_never_fails_witness :
  locks (NewMemoryLocker ()) !! "x"%string = None /\
  UnlockUpload "x" (NewMemoryLocker ()) = (None, NewMemoryLocker ()).
Proof.
  assert (Hfree : locks (NewMemoryLocker ()) !! "x"%string = None)
    by reflexivity.
  split; [exact Hfree |].
  exact (proj2 (proj2 (proj2 (proj2
           (UnlockUpload_never_fails (NewMemoryLocker ()) "x"%string)))) Hfree).
Defined.

(** Locking and unlocking "x" while "y" is held. *)
Lemma LockUpload_UnlockUpload_roundtrip_witness :
  locks (mkMemoryLocker () {["y"%string := true]}) !! "x"%string = None /\
  exists locker1,
    LockUpload "x" (mkMemoryLocker () {["y"%string := true]}) = (None, locker1) /\
    UnlockUpload "x" locker1 = (None, mkMemoryLocker () {["y"%string := true]}).
Proof.
  assert (Hfree : locks (mkMemoryLocker () {["y"%string := true]})
                    !! "x"%string = None) by reflexivity.
  split; [exact Hfree |].
  exact (LockUpload_UnlockUpload_roundtrip _ "x"%string Hfree).
Defined.

End MemoryLockerSpec.

(** ** [int64] arithmetic *)

Lemma wrap64_int64 z : is_int64 (wrap64 z).
Proof.
  unfold is_int64, wrap64.
  pose proof (Z.mod_pos_bound (z + 2 ^ 63) (2 ^ 64) eq_refl). lia.
Qed.

Lemma wrap64_id z : is_int64 z -> wrap64 z = z.
Proof.
  unfold is_int64, wrap64. intros Hz.
  rewrite Z.mod_small by lia. lia.
Qed.

Lemma wrap64_add_l a b : wrap64 (wrap64 a + b) = wrap64 (a + b).
Proof.
  unfold wrap64. f_equal.
  replace ((a + 2 ^ 63) mod 2 ^ 64 - 2 ^ 63 + b + 2 ^ 63)
    with ((a + 2 ^ 63) mod 2 ^ 64 + b) by lia.
  rewrite Zplus_mod_idemp_l. f_equal. lia.
Qed.

Lemma wrap64_sub_l a b : wrap64 (wrap64 a - b) = wrap64 (a - b).
Proof. apply (wrap64_add_l a (- b)). Qed.

(** ** The capacity-bounded store *)

Module LimitedStoreSpec.

Import limitedstore.

(** *** Sums over the map of tracked uploads *)

Lemma exactSum_empty : exactSum ∅ = 0.
Proof. apply map_fold_empty. Qed.

Lemma exactSum_insert (m : gmap string Z) id h :
  m !! id = None -> exactSum (<[id := h]> m) = h + exactSum m.
Proof.
  intros Hid. unfold exactSum.
  rewrite map_fold_insert_L; [reflexivity | intros; lia | exact Hid].
Qed.

Lemma exactSum_delete (m : gmap string Z) id h :
  m !! id = Some h -> exactSum m = h + exactSum (delete id m).
Proof.
  intros Hid. unfold exactSum.
  rewrite (map_fold_delete_L _ _ id h m); [reflexivity | intros; lia | exact Hid].
Qed.

(** *** Sorting *)

Lemma insertSorted_perm less x l : insertSorted less x l ≡ₚ x :: l.
Proof.
  induction l as [| y l IH]; cbn; [reflexivity |].
  destruct (less x y); [reflexivity |].
  rewrite IH. apply Permutation_swap.
Qed.

Lemma insertionSort_perm less l : insertionSort less l ≡ₚ l.
Proof.
  induction l as [| x l IH]; cbn; [reflexivity |].
  rewrite insertSorted_perm. now rewrite IH.
Qed.

Lemma insertSorted_sorted less x l :
  transitiveOrdering less ->
  StronglySorted (fun a b => less b a = false) l ->
  StronglySorted (fun a b => less b a = false) (insertSorted less x l).
Proof.
  intros Hless. induction l as [| y l IH]; cbn; intros Hl.
  - repeat constructor.
  - apply StronglySorted_inv in Hl as [Hl Hy].
    destruct (less x y) eqn:Hxy.
    + constructor; [now constructor |].
      constructor.
      * destruct (less y x) eqn:Hyx; [| reflexivity].
        rewrite <- (less_irrefl _ Hless x). symmetry.
        now apply (less_trans _ Hless x y x).
      * rewrite Forall_forall in *. intros z Hz.
        destruct (less z x) eqn:Hzx; [| reflexivity].
        rewrite <- (Hy z Hz). symmetry.
        now apply (less_trans _ Hless z x y).
    + constructor; [now apply IH |].
      rewrite insertSorted_perm. now constructor.
Qed.

Lemma insertionSort_sorted less l :
  transitiveOrdering less ->
  StronglySorted (fun a b => less b a = false) (insertionSort less l).
Proof.
  intros Hless. induction l as [| x l IH]; cbn.
  - constructor.
  - now apply insertSorted_sorted.
Qed.

(** The order that [ensureSpace] sorts by. *)
Lemma Reverse_Less_ordering : transitiveOrdering (Reverse Less).
Proof.
  unfold Reverse, Less.
  split; intros *; rewrite ?Z.ltb_ge, ?Z.ltb_lt; lia.
Qed.

Lemma rangeUploads_empty : rangeUploads ∅ = [].
Proof. unfold rangeUploads. now rewrite map_to_list_empty. Qed.

Lemma rangeUploads_tracked (m : gmap string Z) k :
  k ∈ rangeUploads m -> m !! key k = Some (value k).
Proof.
  unfold rangeUploads. rewrite list_elem_of_fmap.
  intros [[u h] [-> Huh]]. now apply elem_of_map_to_list in Huh.
Qed.

Lemma rangeUploads_keys (m : gmap string Z) :
  NoDup (key <$> rangeUploads m).
Proof.
  unfold rangeUploads. rewrite <- list_fmap_compose.
  apply NoDup_fst_map_to_list.
Qed.

Section Facts.

Context {B : Type} (ds : TerminaterDataStore B).
Variable sort_Sort : (pair -> pair -> bool) -> pairlist -> pairlist.

(** What the documentation of [sort.Sort] promises: the slice is
    rearranged, and no element is [Less] than one that comes before it. *)
Hypothesis sort_Sort_perm : forall less l, sort_Sort less l ≡ₚ l.
Hypothesis sort_Sort_sorted : forall less l,
  transitiveOrdering less ->
  StronglySorted (fun a b => less b a = false) (sort_Sort less l).

Implicit Types (store : LimitedStore B) (id : string) (size : Z).
Implicit Types (info : FileInfo) (l gone rest : pairlist) (k : pair).

(** *** [terminate] *)

Lemma terminate_ok id store b :
ds_Terminate ds id (dataStore store) = (None, b) ->
terminate ds id store =
  (None, {| StoreSize := StoreSize store; dataStore := b;
            uploads := delete id (uploads store);
            usedSize := wrap64 (usedSize store
                                - default 0 (uploads store !! id)) |}).
Proof. intros Hb. unfold terminate. now rewrite Hb. Qed.

Lemma terminate_failed id store err b :
ds_Terminate ds id (dataStore store) = (Some err, b) ->
terminate ds id store =
  (Some err, {| StoreSize := StoreSize store; dataStore := b;
                uploads := uploads store; usedSize := usedSize store |}).
Proof. intros Hb. unfold terminate. now rewrite Hb. Qed.

Lemma terminate_inv id store r store' :
terminate ds id store = (r, store') ->
StoreSize store' = StoreSize store /\
match r with
| Some err =>
    ds_Terminate ds id (dataStore store) = (Some err, dataStore store') /\
    uploads store' = uploads store /\ usedSize store' = usedSize store
| None =>
    ds_Terminate ds id (dataStore store) = (None, dataStore store') /\
    uploads store' = delete id (uploads store) /\
    usedSize store' =
      wrap64 (usedSize store - default 0 (uploads store !! id))
end.
Proof.
unfold terminate.
destruct (ds_Terminate ds id (dataStore store)) as [[err|] b];
  intros [= <- <-]; cbn; auto.
Qed.

Lemma terminate_accounted id store :
accounted store -> accounted (terminate ds id store).2.
Proof.
unfold accounted, sumSizes. intros Hacc.
destruct (terminate ds id store) as [r store'] eqn:Hterm.
apply terminate_inv in Hterm as [_ Hterm].
destruct r as [err|]; cbn; destruct Hterm as (_ & Hup & Hused);
  rewrite Hup, Hused; [exact Hacc |].
rewrite Hacc, wrap64_sub_l.
destruct (uploads store !! id) as [h|] eqn:Hid; cbn.
- f_equal. rewrite (exactSum_delete _ id h Hid). lia.
- rewrite delete_id by exact Hid. f_equal. lia.
Qed.

Lemma terminate_untracked id id' store :
uploads store !! id' = None ->
uploads (terminate ds id store).2 !! id' = None.
Proof.
intros Hid'.
destruct (terminate ds id store) as [r store'] eqn:Hterm.
apply terminate_inv in Hterm as [_ Hterm].
destruct r; destruct Hterm as (_ & Hup & _); cbn; rewrite Hup;
  [exact Hid' |].
rewrite lookup_delete_None. now right.
Qed.

(** *** The eviction loop *)

Lemma evict_accounted l size store :
accounted store -> accounted (evict ds l size store).2.
Proof.
revert store. induction l as [| k l IH]; intros store Hacc; cbn; [exact Hacc |].
pose proof (terminate_accounted (key k) store Hacc) as Hacc'.
destruct (terminate ds (key k) store) as [[err|] store']; [exact Hacc' |].
destruct (fits size store'); [exact Hacc' |]. now apply IH.
Qed.

Lemma evict_untracked l size store id' :
uploads store !! id' = None ->
uploads (evict ds l size store).2 !! id' = None.
Proof.
revert store. induction l as [| k l IH]; intros store Hid'; cbn; [exact Hid' |].
pose proof (terminate_untracked (key k) id' store Hid') as Hid''.
destruct (terminate ds (key k) store) as [[err|] store']; [exact Hid'' |].
destruct (fits size store'); [exact Hid'' |]. now apply IH.
Qed.

Lemma ensureSpace_accounted size store :
accounted store -> accounted (ensureSpace ds sort_Sort size store).2.
Proof.
intros Hacc. unfold ensureSpace.
destruct (fits size store); [exact Hacc |]. now apply evict_accounted.
Qed.

Lemma ensureSpace_untracked size store id' :
uploads store !! id' = None ->
uploads (ensureSpace ds sort_Sort size store).2 !! id' = None.
Proof.
intros Hid'. unfold ensureSpace.
destruct (fits size store); [exact Hid' |]. now apply evict_untracked.
Qed.

(** *** Calls and sequences of calls *)

Lemma NewUpload_accounted info store :
accounted store ->
freshId ds sort_Sort (OpNewUpload info) store ->
accounted (NewUpload ds sort_Sort info store).2.
Proof.
intros Hacc Hfresh. cbn in Hfresh. unfold NewUpload in *.
pose proof (ensureSpace_accounted (Size info) store Hacc) as Hacc1.
pose proof (fun id' => ensureSpace_untracked (Size info) store id') as Hsub.
destruct (ensureSpace ds sort_Sort (Size info) store) as [[err|] store1];
  [exact Hacc1 |].
cbn in Hacc1, Hsub. unfold delegate in *.
destruct (ds_NewUpload ds info (dataStore store1)) as [[id|err] b];
  [| exact Hacc1].
cbn in *. unfold accounted, sumSizes in *; cbn.
rewrite exactSum_insert by (apply Hsub, Hfresh; reflexivity).
rewrite Hacc1, wrap64_add_l. f_equal. lia.
Qed.

Lemma step_accounted o store :
accounted store -> freshId ds sort_Sort o store ->
accounted (step ds sort_Sort o store).
Proof.
destruct o as [info | id]; cbn [step]; intros Hacc Hfresh.
- now apply NewUpload_accounted.
- now apply terminate_accounted.
Qed.

Lemma run_accounted ops store :
accounted store -> wellBehaved ds sort_Sort ops store ->
Forall accounted (run ds sort_Sort ops store).
Proof.
revert store. induction ops as [| o ops IH]; intros store Hacc Hops; cbn.
- constructor.
- destruct Hops as (_ & Hfresh & Hops).
  pose proof (step_accounted o store Hacc Hfresh) as Hacc'.
  constructor; [exact Hacc' |]. now apply IH.
Qed.

Lemma accounted_exact store :
accounted store -> is_int64 (exactSum (uploads store)) ->
usedSize store = exactSum (uploads store).
Proof.
unfold accounted, sumSizes. intros -> Hsum. now apply wrap64_id.
Qed.

(** C1. Take a store made by [New] and any sequence of [NewUpload] and
  [Terminate] calls on it in which every call succeeds (so every backend
  call does) and every id that the backend hands out is one that is not
  tracked.  After each call of the sequence [usedSize] is the sum of the
  declared sizes recorded in [uploads], the sum being taken as the code
  takes it, in [int64]; it is the sum over the integers whenever that
  one is an [int64]. *)
Theorem usedSize_is_sum_of_tracked storeSize backend ops :
wellBehaved ds sort_Sort ops (New storeSize backend) ->
Forall (fun store =>
          usedSize store = sumSizes (uploads store) /\
          (is_int64 (exactSum (uploads store)) ->
           usedSize store = exactSum (uploads store)))
       (run ds sort_Sort ops (New storeSize backend)).
Proof.
intros Hops.
assert (Hnew : accounted (New storeSize backend)).
{ unfold accounted, sumSizes, New; cbn. now rewrite exactSum_empty. }
pose proof (run_accounted ops _ Hnew Hops) as Hrun.
eapply Forall_impl; [exact Hrun |].
intros store Hacc. split; [exact Hacc | now apply accounted_exact].
Qed.

(** *** What the eviction loop does *)

Lemma evict_exhausted l size store store1 :
keepsEvicting ds size l store store1 ->
evict ds l size store = (None, store1).
Proof.
revert store. induction l as [| k l IH]; cbn; intros store.
- now intros ->.
- intros (store0 & -> & -> & Hl). now apply IH.
Qed.

Lemma evict_stops gone k rest size store store1 r store' :
keepsEvicting ds size gone store store1 ->
terminate ds (key k) store1 = (r, store') ->
(r = None -> fits size store' = true) ->
evict ds (gone ++ k :: rest) size store = (r, store').
Proof.
revert store. induction gone as [| k0 gone IH]; cbn; intros store.
- intros -> -> Hfits. destruct r; [reflexivity |]. now rewrite Hfits.
- intros (store0 & -> & -> & Hgone) Hk Hfits. now apply IH.
Qed.

Lemma evict_cases l size store :
(exists gone k rest store1 store',
   l = gone ++ k :: rest /\
   keepsEvicting ds size gone store store1 /\
   terminate ds (key k) store1 = (None, store') /\
   fits size store' = true /\
   evict ds l size store = (None, store')) \/
(exists store',
   keepsEvicting ds size l store store' /\
   evict ds l size store = (None, store')) \/
(exists gone k rest store1 err store',
   l = gone ++ k :: rest /\
   keepsEvicting ds size gone store store1 /\
   terminate ds (key k) store1 = (Some err, store') /\
   evict ds l size store = (Some err, store')).
Proof.
revert store. induction l as [| k l IH]; intros store.
- right; left. now exists store.
- cbn [evict].
  destruct (terminate ds (key k) store) as [[err|] store0] eqn:Hk.
  + right; right. now exists [], k, l, store, err, store0.
  + destruct (fits size store0) eqn:Hfits.
    * left. now exists [], k, l, store, store0.
    * destruct (IH store0) as
        [(gone & k' & rest & store1 & store' & -> & Hgone & Hk' & Hfits' & Hev)
        |[(store' & Hl & Hev)
         |(gone & k' & rest & store1 & err & store' & -> & Hgone & Hk' & Hev)]].
      -- left. exists (k :: gone), k', rest, store1, store'.
         repeat split; trivial. cbn. eauto.
      -- right; left. exists store'. split; [| exact Hev]. cbn. eauto.
      -- right; right. exists (k :: gone), k', rest, store1, err, store'.
         repeat split; trivial. cbn. eauto.
Qed.

Lemma keepsEvicting_bookkeeping size gone store store1 :
keepsEvicting ds size gone store store1 ->
NoDup (key <$> gone) ->
Forall (fun k => uploads store !! key k = Some (value k)) gone ->
StoreSize store1 = StoreSize store /\
uploads store1 = (without gone store).1 /\
usedSize store1 = (without gone store).2.
Proof.
revert store. induction gone as [| k gone IH]; cbn; intros store.
- now intros ->.
- intros (store0 & Hk & _ & Hgone) Hnodup Htracked.
  apply NoDup_cons in Hnodup as [Hk_notin Hnodup].
  apply Forall_cons in Htracked as [Hk_tracked Htracked].
  apply terminate_inv in Hk as (Hsize & _ & Hup & Hused).
  rewrite Hk_tracked in Hused; cbn in Hused.
  destruct (IH store0 Hgone Hnodup) as (-> & -> & ->).
  + rewrite Hup. rewrite Forall_forall in *. intros k' Hk'.
    rewrite lookup_delete_ne; [now apply Htracked |].
    intros Heq. apply Hk_notin. rewrite Heq.
    apply list_elem_of_fmap. now exists k'.
  + unfold without; cbn. now rewrite Hsize, Hup, Hused.
Qed.

Lemma sortedUploads_perm store :
sortedUploads sort_Sort store ≡ₚ rangeUploads (uploads store).
Proof. apply sort_Sort_perm. Qed.

Lemma sortedUploads_tracked store :
Forall (fun k => uploads store !! key k = Some (value k))
       (sortedUploads sort_Sort store).
Proof.
rewrite Forall_forall. intros k Hk.
apply rangeUploads_tracked. now rewrite <- sortedUploads_perm.
Qed.

Lemma sortedUploads_keys store :
NoDup (key <$> sortedUploads sort_Sort store).
Proof. rewrite sortedUploads_perm. apply rangeUploads_keys. Qed.

Lemma sortedUploads_descending store :
StronglySorted (fun a b => value b <= value a)
               (sortedUploads sort_Sort store).
Proof.
unfold sortedUploads.
pose proof (sort_Sort_sorted (Reverse Less)
              (rangeUploads (uploads store)) Reverse_Less_ordering) as Hs.
induction Hs as [| a l Hl IH Ha]; constructor; [exact IH |].
eapply Forall_impl; [exact Ha |].
intros b. unfold Reverse, Less. rewrite Z.ltb_ge. trivial.
Qed.

Lemma sortedUploads_complete store k :
  k ∈ sortedUploads sort_Sort store <->
  uploads store !! key k = Some (value k).
Proof.
  rewrite sortedUploads_perm. unfold rangeUploads.
  rewrite list_elem_of_fmap. split.
  - intros [[u h] [-> Huh]]. now apply elem_of_map_to_list in Huh.
  - intros Hk. exists (key k, value k). split; [now destruct k |].
    now apply elem_of_map_to_list.
Qed.

Lemma removed_lookup_other (m : gmap string Z) l id :
  id ∉ key <$> l ->
  foldl (fun m k => delete (key k) m) m l !! id = m !! id.
Proof.
  revert m. induction l as [| k l IH]; intros m Hid; cbn; [reflexivity |].
  rewrite fmap_cons, not_elem_of_cons in Hid. destruct Hid as [Hne Hid].
  rewrite IH by exact Hid. now apply lookup_delete_ne.
Qed.

Lemma backendTerminateAll_app ids1 ids2 (b : B) :
  backendTerminateAll ds (ids1 ++ ids2) b =
    match backendTerminateAll ds ids1 b with
    | (Some err, b1) => (Some err, b1)
    | (None, b1) => backendTerminateAll ds ids2 b1
    end.
Proof.
  revert b. induction ids1 as [| id ids1 IH]; intros b; cbn; [reflexivity |].
  destruct (ds_Terminate ds id b) as [[err|] b1]; [reflexivity | apply IH].
Qed.

Lemma keepsEvicting_calls size gone store store1 :
  keepsEvicting ds size gone store store1 ->
  NoDup (key <$> gone) ->
  Forall (fun k => uploads store !! key k = Some (value k)) gone ->
  backendTerminateAll ds (key <$> gone) (dataStore store)
    = (None, dataStore store1) /\
  forall p q, gone = p ++ q -> p <> [] ->
    StoreSize store < wrap64 ((without p store).2 + size).
Proof.
  revert store. induction gone as [| k gone IH]; cbn; intros store.
  - intros -> _ _. split; [reflexivity |].
    intros p q Hpq Hp. now destruct p.
  - intros (store0 & Hk & Hfull & Hgone) Hnodup Htracked.
    apply NoDup_cons in Hnodup as [Hk_notin Hnodup].
    apply Forall_cons in Htracked as [Hk_tracked Htracked].
    apply terminate_inv in Hk as (Hsize & Hcall & Hup & Hused).
    rewrite Hk_tracked in Hused.
    change (default 0 (Some (value k))) with (value k) in Hused.
    destruct (IH store0 Hgone Hnodup) as [Hcalls Hprefix].
    + rewrite Hup. rewrite Forall_forall in *. intros k' Hk'.
      rewrite lookup_delete_ne; [now apply Htracked |].
      intros Heq. apply Hk_notin. rewrite Heq.
      apply list_elem_of_fmap. now exists k'.
    + split; [now rewrite Hcall |].
      intros p q Hpq Hp. destruct p as [| k' p]; [congruence |].
      injection Hpq as <- Hpq.
      unfold without. cbn [snd foldl]. rewrite <- Hused, <- Hsize.
      destruct p as [| k'' p].
      * cbn [foldl]. unfold fits in Hfull. now apply Z.leb_gt in Hfull.
      * now apply (Hprefix (k'' :: p) q).
Qed.

Lemma proper_prefix gone k (p q : list pair) :
  gone ++ [k] = p ++ q -> q <> [] -> exists q', gone = p ++ q'.
Proof.
  intros Hpq Hq. destruct q as [| x q _] using rev_ind; [congruence |].
  rewrite app_assoc in Hpq. apply app_inj_tail in Hpq as [-> _]. now exists q.
Qed.

(** C2. When [usedSize + size <= StoreSize], as the code computes it in
    [int64], fails for the declared size at the start of [NewUpload]:
    the slice that the eviction loop walks holds each tracked upload
    once, with its declared size, and nothing else, in non-increasing
    order of size (nothing more is known of the order of equal sizes).
    The loop calls the backend's [Terminate] on the uploads of a prefix
    [tried] of that slice, in this order, and has found no room before
    each of these calls.  Either all these calls succeed: then the
    uploads of [tried] are gone from [uploads], their sizes are taken
    off [usedSize], there is room now unless the slice is exhausted, and
    [NewUpload] goes on to create the upload.  Or the last of these
    calls fails, the ones before it having succeeded: then only the
    uploads before it are gone from the bookkeeping, and [NewUpload]
    returns the error. *)
Theorem NewUpload_evicts_largest_first info store :
  fits (Size info) store = false ->
  NoDup (key <$> sortedUploads sort_Sort store) /\
  (forall k, k ∈ sortedUploads sort_Sort store <->
             uploads store !! key k = Some (value k)) /\
  StronglySorted (fun a b => value b <= value a)
                 (sortedUploads sort_Sort store) /\
  exists tried rest,
    sortedUploads sort_Sort store = tried ++ rest /\
    (forall p q, tried = p ++ q -> q <> [] ->
       StoreSize store < wrap64 ((without p store).2 + Size info)) /\
    ((exists b' store',
        backendTerminateAll ds (key <$> tried) (dataStore store)
          = (None, b') /\
        store' = {| StoreSize := StoreSize store; dataStore := b';
                    uploads := (without tried store).1;
                    usedSize := (without tried store).2 |} /\
        ensureSpace ds sort_Sort (Size info) store = (None, store') /\
        (wrap64 (usedSize store' + Size info) <= StoreSize store' \/
         rest = []) /\
        NewUpload ds sort_Sort info store = delegate ds info store') \/
     (exists gone k b1 err b' store',
        tried = gone ++ [k] /\
        backendTerminateAll ds (key <$> gone) (dataStore store)
          = (None, b1) /\
        ds_Terminate ds (key k) b1 = (Some err, b') /\
        store' = {| StoreSize := StoreSize store; dataStore := b';
                    uploads := (without gone store).1;
                    usedSize := (without gone store).2 |} /\
        ensureSpace ds sort_Sort (Size info) store = (Some err, store') /\
        NewUpload ds sort_Sort info store = (Err err, store'))).
Proof.
  intros Hfull.
  pose proof (sortedUploads_keys store) as Hnodup.
  pose proof (sortedUploads_tracked store) as Htracked.
  split; [exact Hnodup |].
  split; [apply sortedUploads_complete |].
  split; [apply sortedUploads_descending |].
  assert (Hstart : StoreSize store < wrap64 ((without [] store).2 + Size info)).
  { unfold fits in Hfull. now apply Z.leb_gt in Hfull. }
  unfold NewUpload, ensureSpace. rewrite Hfull.
  destruct (evict_cases (sortedUploads sort_Sort store) (Size info) store)
    as [(gone & k & rest & store1 & store' & Hsorted & Hgone & Hk & Hfits & Hev)
       |[(store' & Hall & Hev)
        |(gone & k & rest & store1 & err & store' & Hsorted & Hgone & Hk & Hev)]];
    rewrite Hev.
  - (* room after the termination of [k] *)
    rewrite Hsorted in Hnodup, Htracked.
    rewrite fmap_app, fmap_cons in Hnodup.
    apply NoDup_app in Hnodup as (Hnodup & Hk_notin & _).
    apply Forall_app in Htracked as [Htracked Hk_tracked].
    apply Forall_cons in Hk_tracked as [Hk_tracked _].
    destruct (keepsEvicting_bookkeeping _ _ _ _ Hgone Hnodup Htracked)
      as (Hsize & Hup & Hused).
    destruct (keepsEvicting_calls _ _ _ _ Hgone Hnodup Htracked)
      as [Hcalls Hprefix].
    apply terminate_inv in Hk as (Hsize' & Hcall & Hup' & Hused').
    assert (Hk_still : uploads store1 !! key k = Some (value k)).
    { rewrite Hup. unfold without; cbn.
      rewrite removed_lookup_other; [exact Hk_tracked |].
      intros Hin. apply (Hk_notin _ Hin). apply list_elem_of_here. }
    rewrite Hk_still in Hused'.
    change (default 0 (Some (value k))) with (value k) in Hused'.
    assert (Hstore' : store' =
              {| StoreSize := StoreSize store; dataStore := dataStore store';
                 uploads := (without (gone ++ [k]) store).1;
                 usedSize := (without (gone ++ [k]) store).2 |}).
    { unfold without. rewrite !foldl_app; cbn.
      destruct store' as [S' D' U' Us']; cbn in *. f_equal; congruence. }
    exists (gone ++ [k]), rest. split; [now rewrite <- app_assoc |]. split.
    + intros p q Hpq Hq.
      destruct (proper_prefix _ _ _ _ Hpq Hq) as [q' Hgone'].
      destruct p as [| k0 p]; [exact Hstart |].
      now apply (Hprefix (k0 :: p) q').
    + left. exists (dataStore store'), store'.
      split; [| split; [exact Hstore' | split; [reflexivity | split]]].
      * rewrite fmap_app, backendTerminateAll_app, Hcalls. cbn.
        now rewrite Hcall.
      * left. unfold fits in Hfits. now apply Z.leb_le in Hfits.
      * reflexivity.
  - (* the slice is exhausted *)
    destruct (keepsEvicting_bookkeeping _ _ _ _ Hall Hnodup Htracked)
      as (Hsize & Hup & Hused).
    destruct (keepsEvicting_calls _ _ _ _ Hall Hnodup Htracked)
      as [Hcalls Hprefix].
    exists (sortedUploads sort_Sort store), []. split; [now rewrite app_nil_r |].
    split.
    + intros p q Hpq Hq. destruct p as [| k0 p]; [exact Hstart |].
      now apply (Hprefix (k0 :: p) q).
    + left. exists (dataStore store'), store'.
      split; [exact Hcalls |].
      split; [destruct store'; cbn in *; f_equal; congruence |].
      split; [reflexivity | split; [now right | reflexivity]].
  - (* the termination of [k] fails *)
    rewrite Hsorted in Hnodup, Htracked.
    rewrite fmap_app in Hnodup.
    apply NoDup_app in Hnodup as (Hnodup & _ & _).
    apply Forall_app in Htracked as [Htracked _].
    destruct (keepsEvicting_bookkeeping _ _ _ _ Hgone Hnodup Htracked)
      as (Hsize & Hup & Hused).
    destruct (keepsEvicting_calls _ _ _ _ Hgone Hnodup Htracked)
      as [Hcalls Hprefix].
    apply terminate_inv in Hk as (Hsize' & Hcall & Hup' & Hused').
    exists (gone ++ [k]), rest. split; [now rewrite <- app_assoc |]. split.
    + intros p q Hpq Hq.
      destruct (proper_prefix _ _ _ _ Hpq Hq) as [q' Hgone'].
      destruct p as [| k0 p]; [exact Hstart |].
      now apply (Hprefix (k0 :: p) q').
    + right. exists gone, k, (dataStore store1), err, (dataStore store'), store'.
      split; [reflexivity | split; [exact Hcalls | split; [exact Hcall |]]].
      split; [destruct store'; cbn in *; f_equal; congruence |].
      split; reflexivity.
Qed.

(** C3. When the condition fails at the start and the loop terminates
  every upload of the slice, each with success, without the condition
  ever holding, [ensureSpace] returns [nil] all the same, and [NewUpload]
  goes on to the backend's [NewUpload]: if that one succeeds, so does the
  call, and the new upload is recorded.  In particular, with nothing
  tracked, [NewUpload] succeeds whenever the backend's [NewUpload] does,
  whatever the declared size and the capacity are. *)
Theorem NewUpload_best_effort info store :
(forall store1,
   fits (Size info) store = false ->
   keepsEvicting ds (Size info) (sortedUploads sort_Sort store) store store1 ->
   ensureSpace ds sort_Sort (Size info) store = (None, store1) /\
   forall id b,
     ds_NewUpload ds info (dataStore store1) = (Ok id, b) ->
     NewUpload ds sort_Sort info store =
       (Ok id, {| StoreSize := StoreSize store1; dataStore := b;
                  uploads := <[id := Size info]> (uploads store1);
                  usedSize := wrap64 (usedSize store1 + Size info) |})) /\
(uploads store = ∅ ->
 forall id b,
   ds_NewUpload ds info (dataStore store) = (Ok id, b) ->
   NewUpload ds sort_Sort info store =
     (Ok id, {| StoreSize := StoreSize store; dataStore := b;
                uploads := {[id := Size info]};
                usedSize := wrap64 (usedSize store + Size info) |})).
Proof.
split.
- intros store1 Hfull Hall.
  assert (Hens : ensureSpace ds sort_Sort (Size info) store = (None, store1)).
  { unfold ensureSpace. rewrite Hfull. now apply evict_exhausted. }
  split; [exact Hens |].
  intros id b Hb. unfold NewUpload. rewrite Hens.
  unfold delegate. now rewrite Hb.
- intros Hempty id b Hb.
  assert (Hens : ensureSpace ds sort_Sort (Size info) store = (None, store)).
  { unfold ensureSpace. destruct (fits (Size info) store); [reflexivity |].
    pose proof (sortedUploads_perm store) as Hperm.
    rewrite Hempty, rangeUploads_empty in Hperm.
    apply Permutation_nil_r in Hperm. now rewrite Hperm. }
  unfold NewUpload. rewrite Hens. unfold delegate. rewrite Hb, Hempty.
  reflexivity.
Qed.

(** C4. When the condition fails at the start, the loop has terminated
  the uploads of [gone] with success, and the backend's [Terminate] then
  fails on the next upload of the slice, [NewUpload] returns that error.
  The store it leaves has the uploads of [gone] removed from [uploads]
  and their sizes taken off [usedSize], nothing else changed in the
  bookkeeping, and as state of the backend the one that the failed
  [Terminate] left: the backend's [NewUpload] has not run. *)
Theorem NewUpload_eviction_failure info store gone k rest store1 err b :
fits (Size info) store = false ->
sortedUploads sort_Sort store = gone ++ k :: rest ->
keepsEvicting ds (Size info) gone store store1 ->
ds_Terminate ds (key k) (dataStore store1) = (Some err, b) ->
NewUpload ds sort_Sort info store =
  (Err err, {| StoreSize := StoreSize store; dataStore := b;
               uploads := (without gone store).1;
               usedSize := (without gone store).2 |}).
Proof.
intros Hfull Hsorted Hgone Hk.
pose proof (sortedUploads_keys store) as Hnodup.
pose proof (sortedUploads_tracked store) as Htracked.
rewrite Hsorted in Hnodup, Htracked.
rewrite fmap_app in Hnodup. apply NoDup_app in Hnodup as (Hnodup & _ & _).
apply Forall_app in Htracked as [Htracked _].
destruct (keepsEvicting_bookkeeping _ _ _ _ Hgone Hnodup Htracked)
  as (Hsize & Hup & Hused).
unfold NewUpload, ensureSpace. rewrite Hfull, Hsorted.
rewrite (evict_stops gone k rest (Size info) store store1 (Some err)
           {| StoreSize := StoreSize store1; dataStore := b;
              uploads := uploads store1; usedSize := usedSize store1 |});
  [| exact Hgone | now apply terminate_failed | discriminate].
now rewrite Hsize, Hup, Hused.
Qed.

(** C6. [Terminate] of an id that is not in [uploads], when the backend's
  [Terminate] succeeds, returns [nil] and leaves [usedSize] and [uploads]
  as they were; the capacity does not change either, and the backend is
  in the state its own [Terminate] left. *)
Theorem Terminate_untracked_keeps_bookkeeping id store b :
uploads store !! id = None ->
is_int64 (usedSize store) ->
ds_Terminate ds id (dataStore store) = (None, b) ->
Terminate ds id store =
  (None, {| StoreSize := StoreSize store; dataStore := b;
            uploads := uploads store; usedSize := usedSize store |}).
Proof.
intros Hid Hused Hb. unfold Terminate.
rewrite (terminate_ok id store b Hb), Hid; cbn.
rewrite delete_id by exact Hid.
rewrite Z.sub_0_r, wrap64_id by exact Hused. reflexivity.
Qed.

Lemma forward_forwards {A} (m : method B A) store :
forwards (forward m) m store.
Proof.
unfold forwards, forward. now destruct (m (dataStore store)).
Qed.

(** C8. Without the capability in the wrapped store, [GetReader] and
  [ConcatUploads] return [ErrNotImplemented], and [LockUpload],
  [UnlockUpload] and [FinishUpload] return [nil]; in all five cases the
  whole store, backend state included, is left as it was, so no method
  of the backend has run.  With the capability, each of the five returns
  what the backend's method returns for the same arguments, the backend
  is in the state that method left and the bookkeeping is untouched. *)
Theorem passthrough_capability_gating store :
(ds_GetReader ds = None ->
 forall id, GetReader ds id store = (Err ErrNotImplemented, store)) /\
(ds_ConcatUploads ds = None ->
 forall dest src,
   ConcatUploads ds dest src store = (Some ErrNotImplemented, store)) /\
(ds_Locker ds = None ->
 forall id, LockUpload ds id store = (None, store) /\
            UnlockUpload ds id store = (None, store)) /\
(ds_FinishUpload ds = None ->
 forall id, FinishUpload ds id store = (None, store)) /\
(forall getReader, ds_GetReader ds = Some getReader ->
 forall id, forwards (GetReader ds id) (getReader id) store) /\
(forall concatUploads, ds_ConcatUploads ds = Some concatUploads ->
 forall dest src,
   forwards (ConcatUploads ds dest src) (concatUploads dest src) store) /\
(forall lockUpload unlockUpload,
   ds_Locker ds = Some (lockUpload, unlockUpload) ->
 forall id, forwards (LockUpload ds id) (lockUpload id) store /\
            forwards (UnlockUpload ds id) (unlockUpload id) store) /\
(forall finishUpload, ds_FinishUpload ds = Some finishUpload ->
 forall id, forwards (FinishUpload ds id) (finishUpload id) store).
Proof.
unfold GetReader, ConcatUploads, LockUpload, UnlockUpload, FinishUpload.
repeat apply conj.
- now intros ->.
- now intros ->.
- now intros ->.
- now intros ->.
- intros m ->. intros. apply forward_forwards.
- intros m ->. intros. apply forward_forwards.
- intros m1 m2 ->. intros. split; apply forward_forwards.
- intros m ->. intros. apply forward_forwards.
Qed.

End Facts.

(** *** The theorems at work on the demo store *)

(** Two uploads that fit one at a time, a termination of an id that is no
    longer tracked, and a third upload that evicts the second. *)
Lemma usedSize_is_sum_of_tracked_witness :
  wellBehaved (demoStore []) insertionSort
    [OpNewUpload (mkFileInfo "" 30); OpNewUpload (mkFileInfo "" 50);
     OpTerminate "a"; OpNewUpload (mkFileInfo "" 35)]
    (New 60 demoInit) /\
  Forall (fun store =>
            usedSize store = sumSizes (uploads store) /\
            (is_int64 (exactSum (uploads store)) ->
             usedSize store = exactSum (uploads store)))
         (run (demoStore []) insertionSort
            [OpNewUpload (mkFileInfo "" 30); OpNewUpload (mkFileInfo "" 50);
             OpTerminate "a"; OpNewUpload (mkFileInfo "" 35)]
            (New 60 demoInit)).
Proof.
  assert (Hops : wellBehaved (demoStore []) insertionSort
            [OpNewUpload (mkFileInfo "" 30); OpNewUpload (mkFileInfo "" 50);
             OpTerminate "a"; OpNewUpload (mkFileInfo "" 35)]
            (New 60 demoInit)).
  { cbn [wellBehaved succeeds freshId].
    repeat match goal with
    | |- _ /\ _ => split
    | |- True => exact I
    | |- exists _, _ => eexists; vm_compute; reflexivity
    | |- forall _, _ -> _ =>
        let H := fresh in
        intros ? H; vm_compute in H; injection H as <-; vm_compute; reflexivity
    | |- _ = None => vm_compute; reflexivity
    end. }
  split; [exact Hops |].
  exact (usedSize_is_sum_of_tracked (demoStore []) insertionSort 60 demoInit _ Hops).
Defined.

(** Over the integers the two can differ.  On a store of capacity 100
    made by [New], an upload of 2^63 - 6 bytes and one of 10 bytes are
    both created, the backend handing out the fresh ids "a" and "b":
    [usedSize] has wrapped around to -2^63 + 4, and the tracked sizes add
    up to 2^63 + 4. *)
Lemma usedSize_is_sum_counterexample :
  wellBehaved (demoStore []) insertionSort
    [OpNewUpload (mkFileInfo "" (2 ^ 63 - 6)); OpNewUpload (mkFileInfo "" 10)]
    (New 100 demoInit) /\
  ~ Forall (fun store => usedSize store = exactSum (uploads store))
      (run (demoStore []) insertionSort
         [OpNewUpload (mkFileInfo "" (2 ^ 63 - 6));
          OpNewUpload (mkFileInfo "" 10)]
         (New 100 demoInit)).
Proof.
  split.
  - cbn [wellBehaved succeeds freshId].
    repeat match goal with
    | |- _ /\ _ => split
    | |- True => exact I
    | |- exists _, _ => eexists; vm_compute; reflexivity
    | |- forall _, _ -> _ =>
        let H := fresh in
        intros ? H; vm_compute in H; injection H as <-; vm_compute; reflexivity
    end.
  - cbn [run]. intros Hall.
    apply Forall_cons in Hall as [_ Hall].
    apply Forall_cons in Hall as [Hlast _].
    vm_compute in Hlast. discriminate Hlast.
Qed.

(** Sizes 10, 50, 30 and 5 in a store of capacity 40 that holds 95, and a
    request for 35 more: the uploads of 50, 30 and 10 are terminated, in
    this order, and the upload of 5 stays. *)
Lemma NewUpload_evicts_largest_first_witness :
  fits 35 demoTracked = false /\
  sortedUploads insertionSort demoTracked =
    [mkPair "b" 50; mkPair "c" 30; mkPair "a" 10; mkPair "d" 5] /\
  ensureSpace (demoStore []) insertionSort 35 demoTracked =
    (None, {| StoreSize := 40;
              dataStore :=
                {| issued := 0;
                   journal := ["Terminate b"; "Terminate c";
                               "Terminate a"]%string |};
              uploads := {["d"%string := 5]};
              usedSize := 5 |}) /\
  (forall k, k ∈ sortedUploads insertionSort demoTracked <->
             uploads demoTracked !! key k = Some (value k)) /\
  StronglySorted (fun a b => value b <= value a)
                 (sortedUploads insertionSort demoTracked) /\
  exists tried rest,
    sortedUploads insertionSort demoTracked = tried ++ rest /\
    (forall p q, tried = p ++ q -> q <> [] ->
       StoreSize demoTracked < wrap64 ((without p demoTracked).2 + 35)) /\
    ((exists b' store',
        backendTerminateAll (demoStore []) (key <$> tried)
          (dataStore demoTracked) = (None, b') /\
        store' = {| StoreSize := StoreSize demoTracked; dataStore := b';
                    uploads := (without tried demoTracked).1;
                    usedSize := (without tried demoTracked).2 |} /\
        ensureSpace (demoStore []) insertionSort 35 demoTracked
          = (None, store') /\
        (wrap64 (usedSize store' + 35) <= StoreSize store' \/ rest = []) /\
        NewUpload (demoStore []) insertionSort (mkFileInfo "" 35) demoTracked
          = delegate (demoStore []) (mkFileInfo "" 35) store') \/
     (exists gone k b1 err b' store',
        tried = gone ++ [k] /\
        backendTerminateAll (demoStore []) (key <$> gone)
          (dataStore demoTracked) = (None, b1) /\
        ds_Terminate (demoStore []) (key k) b1 = (Some err, b') /\
        store' = {| StoreSize := StoreSize demoTracked; dataStore := b';
                    uploads := (without gone demoTracked).1;
                    usedSize := (without gone demoTracked).2 |} /\
        ensureSpace (demoStore []) insertionSort 35 demoTracked
          = (Some err, store') /\
        NewUpload (demoStore []) insertionSort (mkFileInfo "" 35) demoTracked
          = (Err err, store'))).
Proof.
  assert (Hfull : fits (Size (mkFileInfo "" 35)) demoTracked = false)
    by (vm_compute; reflexivity).
  split; [exact Hfull |].
  split; [vm_compute; reflexivity |].
  split; [vm_compute; reflexivity |].
  exact (proj2 (NewUpload_evicts_largest_first (demoStore []) insertionSort
                  insertionSort_perm insertionSort_sorted
                  (mkFileInfo "" 35) demoTracked Hfull)).
Defined.

(** Read over the integers, the condition of the loop is not the one
    that the code tests.  A store of capacity 100 made by [New] takes an
    upload of 2^63 - 6 bytes and is then asked for 10 more: over the
    integers [usedSize + size] is above [StoreSize], but the [int64] sum
    is negative, so [ensureSpace] calls no [Terminate] and returns [nil]
    with the upload still tracked, and the new upload is created. *)
Lemma NewUpload_evicts_counterexample :
  let store :=
    step (demoStore []) insertionSort
      (OpNewUpload (mkFileInfo "" (2 ^ 63 - 6))) (New 100 demoInit) in
  uploads store !! "a"%string = Some (2 ^ 63 - 6) /\
  usedSize store + 10 > StoreSize store /\
  ensureSpace (demoStore []) insertionSort 10 store = (None, store) /\
  ~ (usedSize (ensureSpace (demoStore []) insertionSort 10 store).2 + 10
     <= StoreSize (ensureSpace (demoStore []) insertionSort 10 store).2) /\
  (NewUpload (demoStore []) insertionSort (mkFileInfo "" 10) store).1
    = Ok "b"%string /\
  journal (dataStore
             (NewUpload (demoStore []) insertionSort (mkFileInfo "" 10)
                store).2)
    = ["NewUpload"; "NewUpload"]%string.
Proof.
  intros store.
  assert (Hused : usedSize store = 2 ^ 63 - 6) by (vm_compute; reflexivity).
  assert (Hsize : StoreSize store = 100) by (vm_compute; reflexivity).
  assert (Hens : ensureSpace (demoStore []) insertionSort 10 store
                 = (None, store)) by (vm_compute; reflexivity).
  split; [vm_compute; reflexivity |].
  split; [rewrite Hused, Hsize; lia |].
  split; [exact Hens |].
  split; [rewrite Hens; cbn [snd]; rewrite Hused, Hsize; lia |].
  split; vm_compute; reflexivity.
Qed.

(** Capacity 5 and a request for 100: with one upload to evict, and with
    none. *)
Lemma NewUpload_best_effort_witness :
  (fits 100 demoSmall = false /\
   keepsEvicting (demoStore []) 100 (sortedUploads insertionSort demoSmall)
     demoSmall
     {| StoreSize := 5; dataStore := demoLog "Terminate a" demoInit;
        uploads := ∅; usedSize := 0 |} /\
   (NewUpload (demoStore []) insertionSort (mkFileInfo "" 100) demoSmall).1
     = Ok "a"%string) /\
  (uploads (New 5 demoInit) = ∅ /\
   (NewUpload (demoStore []) insertionSort (mkFileInfo "" 100)
      (New 5 demoInit)).1 = Ok "a"%string).
Proof.
  assert (Hfull : fits (Size (mkFileInfo "" 100)) demoSmall = false)
    by (vm_compute; reflexivity).
  assert (Hall : keepsEvicting (demoStore []) (Size (mkFileInfo "" 100))
                   (sortedUploads insertionSort demoSmall) demoSmall
                   {| StoreSize := 5; dataStore := demoLog "Terminate a" demoInit;
                      uploads := ∅; usedSize := 0 |}).
  { replace (sortedUploads insertionSort demoSmall)
      with [{| key := "a"%string; value := 10 |}] by (vm_compute; reflexivity).
    eexists. split; [vm_compute; reflexivity |].
    split; vm_compute; reflexivity. }
  assert (Hempty : uploads (New 5 demoInit) = ∅) by reflexivity.
  split; [split; [exact Hfull | split; [exact Hall |]] | split; [exact Hempty |]].
  - rewrite (proj2 (proj1 (NewUpload_best_effort (demoStore []) insertionSort
                             insertionSort_perm (mkFileInfo "" 100) demoSmall)
                      _ Hfull Hall) "a"%string _ eq_refl).
    reflexivity.
  - rewrite (proj2 (NewUpload_best_effort (demoStore []) insertionSort
                      insertionSort_perm (mkFileInfo "" 100) (New 5 demoInit))
               Hempty "a"%string _ eq_refl).
    reflexivity.
Defined.

(** "a" goes, "b" is pinned: the call fails, "a" stays gone, "c" stays, and
    the journal of the backend has no [NewUpload]. *)
Lemma NewUpload_eviction_failure_witness :
  fits 90 demoPinned = false /\
  sortedUploads insertionSort demoPinned =
    [mkPair "a" 60] ++ mkPair "b" 50 :: [mkPair "c" 30] /\
  (let r := NewUpload (demoStore ["b"%string]) insertionSort
              (mkFileInfo "" 90) demoPinned in
   r.1 = Err (ErrBackend "pinned") /\
   uploads r.2 = list_to_map [("b"%string, 50); ("c"%string, 30)] /\
   usedSize r.2 = 80 /\
   journal (dataStore r.2) = ["Terminate a"; "Terminate b"]%string).
Proof.
  assert (Hfull : fits (Size (mkFileInfo "" 90)) demoPinned = false)
    by (vm_compute; reflexivity).
  assert (Hsorted : sortedUploads insertionSort demoPinned =
            [mkPair "a" 60] ++ mkPair "b" 50 :: [mkPair "c" 30])
    by (vm_compute; reflexivity).
  assert (Hgone : keepsEvicting (demoStore ["b"%string])
            (Size (mkFileInfo "" 90)) [mkPair "a" 60] demoPinned
            {| StoreSize := 100; dataStore := demoLog "Terminate a" demoInit;
               uploads := delete "a"%string (uploads demoPinned);
               usedSize := 80 |}).
  { eexists. split; [vm_compute; reflexivity |].
    split; vm_compute; reflexivity. }
  split; [exact Hfull | split; [exact Hsorted |]].
  rewrite (NewUpload_eviction_failure (demoStore ["b"%string]) insertionSort
             insertionSort_perm (mkFileInfo "" 90) demoPinned
             [mkPair "a" 60] (mkPair "b" 50) [mkPair "c" 30] _
             (ErrBackend "pinned")
             (demoLog "Terminate b" (demoLog "Terminate a" demoInit))
             Hfull Hsorted Hgone eq_refl).
  vm_compute. repeat split; reflexivity.
Defined.

(** "z" was never created through the store. *)
Lemma Terminate_untracked_keeps_bookkeeping_witness :
  uploads demoPinned !! "z"%string = None /\
  is_int64 (usedSize demoPinned) /\
  Terminate (demoStore []) "z" demoPinned =
    (None, {| StoreSize := 100; dataStore := demoLog "Terminate z" demoInit;
              uploads := uploads demoPinned; usedSize := 140 |}).
Proof.
  assert (Hid : uploads demoPinned !! "z"%string = None)
    by (vm_compute; reflexivity).
  assert (Hused : is_int64 (usedSize demoPinned))
    by (unfold is_int64; cbn; lia).
  split; [exact Hid | split; [exact Hused |]].
  exact (Terminate_untracked_keeps_bookkeeping (demoStore []) "z"%string
           demoPinned (demoLog "Terminate z" demoInit) Hid Hused eq_refl).
Defined.

(** A backend with none of the optional methods, and one with all. *)
Lemma passthrough_capability_gating_witness :
  (ds_GetReader (demoStore []) = None /\
   GetReader (demoStore []) "a" demoPinned = (Err ErrNotImplemented, demoPinned)) /\
  (ds_Locker (demoStore []) = None /\
   LockUpload (demoStore []) "a" demoPinned = (None, demoPinned)) /\
  (ds_FinishUpload demoStoreFull <> None /\
   journal (dataStore (FinishUpload demoStoreFull "a" demoPinned).2)
     = ["FinishUpload a"%string]).
Proof.
  pose proof (passthrough_capability_gating (demoStore []) demoPinned)
    as (Hreader & _ & Hlocker & _).
  pose proof (passthrough_capability_gating demoStoreFull demoPinned)
    as (_ & _ & _ & _ & _ & _ & _ & Hfinish).
  split; [split; [reflexivity | exact (Hreader eq_refl "a"%string)] |].
  split; [split; [reflexivity | exact (proj1 (Hlocker eq_refl "a"%string))] |].
  split; [discriminate |].
  destruct (Hfinish _ eq_refl "a"%string) as (_ & -> & _). reflexivity.
Defined.

End LimitedStoreSpec.

(** ** The routed handler *)

Module HandlerSpec.

Section Facts.

Context {UnroutedHandler Request Response : Type}.
Variable NewUnroutedHandler : Config -> result UnroutedHandler.
Variable serve : UnroutedHandler -> PatternServeMux -> Request -> Response.


Lemma NewHandler_routes config rHandler :
NewHandler NewUnroutedHandler config = Ok rHandler ->
routeHandler rHandler =
  endpoints (is_TerminaterDataStore (DataStore config))
            (is_GetReaderDataStore (DataStore config)).
Proof.
unfold NewHandler.
destruct (NewUnroutedHandler config) as [handler | err]; [| discriminate].
intros [= <-]; cbn [routeHandler].
destruct (is_TerminaterDataStore (DataStore config)),
         (is_GetReaderDataStore (DataStore config)); reflexivity.
Qed.


End Facts.


End HandlerSpec.

(** * More properties of the code *)

(** ** More on the lock table *)

Module MemoryLockerCalls.

Import memorylocker.

Section Facts.

Context {B : Type}.
Implicit Types (locker : MemoryLocker B) (id : string) (cs : list call).

Lemma performAll_cons c cs locker :
  performAll (c :: cs) locker = performAll cs (perform c locker).2.
Proof. reflexivity. Qed.

Lemma perform_held c locker id :
  c <> Unlock id ->
  is_Some (locks locker !! id) ->
  is_Some (locks (perform c locker).2 !! id).
Proof.
  intros Hc Hheld. destruct c as [id' | id']; cbn.
  - unfold LockUpload. destruct (locks locker !! id') eqn:Hid'; cbn;
      [exact Hheld |].
    rewrite lookup_insert_is_Some. destruct (decide (id' = id)); auto.
  - rewrite lookup_delete_is_Some. split; [congruence | exact Hheld].
Qed.

(** X1. A lock that is held stays held through any calls on the locker
    other than [UnlockUpload] of the same id (locks and unlocks of other
    ids, failed locks of the same id), so that a [LockUpload] of it made
    after those calls fails with [ErrFileLocked]. *)
Theorem held_until_unlocked locker id cs :
  is_Some (locks locker !! id) ->
  Unlock id ∉ cs ->
  is_Some (locks (performAll cs locker) !! id) /\
  LockUpload id (performAll cs locker) =
    (Some ErrFileLocked, performAll cs locker).
Proof.
  intros Hheld Hcs.
  assert (Hafter : is_Some (locks (performAll cs locker) !! id)).
  { revert locker Hheld. induction cs as [| c cs IH]; intros locker Hheld;
      [exact Hheld |].
    rewrite performAll_cons.
    apply not_elem_of_cons in Hcs as [Hc Hcs].
    apply IH; [exact Hcs |]. apply perform_held; [congruence | exact Hheld]. }
  split; [exact Hafter |].
  unfold LockUpload. destruct Hafter as [held Hafter]. now rewrite Hafter.
Qed.

(** X2. Locks are per id: a [LockUpload] or [UnlockUpload] of one id,
    whatever it returns, leaves every other id as it was in the table, so
    a [LockUpload] of another id returns after it what it would have
    returned before it. *)
Theorem calls_on_other_ids_do_not_interfere locker c id :
  c <> Lock id -> c <> Unlock id ->
  locks (perform c locker).2 !! id = locks locker !! id /\
  (LockUpload id (perform c locker).2).1 = (LockUpload id locker).1.
Proof.
  intros Hlock Hunlock.
  assert (Hsame : locks (perform c locker).2 !! id = locks locker !! id).
  { destruct c as [id' | id']; cbn.
    - unfold LockUpload. destruct (locks locker !! id'); cbn; [reflexivity |].
      apply lookup_insert_ne. congruence.
    - apply lookup_delete_ne. congruence. }
  split; [exact Hsame |].
  unfold LockUpload. rewrite Hsame.
  now destruct (locks locker !! id).
Qed.

(** X3. After [UnlockUpload] of an id, [LockUpload] of it succeeds,
    whatever the table held before; two [UnlockUpload] of the same id in a
    row leave what one leaves. *)
Theorem UnlockUpload_releases locker id :
  (LockUpload id (UnlockUpload id locker).2).1 = None /\
  UnlockUpload id (UnlockUpload id locker).2 = UnlockUpload id locker.
Proof.
  split.
  - unfold LockUpload, UnlockUpload; cbn. now rewrite lookup_delete_eq.
  - unfold UnlockUpload; cbn. now rewrite delete_delete_eq.
Qed.

(** X4. No call on the locker reaches the wrapped data store, and the
    table of a locker made by [NewMemoryLocker] never records anything
    but [true]. *)
Theorem performAll_frame (store : B) cs :
  DataStore (performAll cs (NewMemoryLocker store)) = store /\
  forall id held,
    locks (performAll cs (NewMemoryLocker store)) !! id = Some held ->
    held = true.
Proof.
  assert (Hgen : forall locker,
             (forall id held, locks locker !! id = Some held -> held = true) ->
             DataStore (performAll cs locker) = DataStore locker /\
             forall id held,
               locks (performAll cs locker) !! id = Some held -> held = true).
  { induction cs as [| c cs IH]; intros locker Htrue; [now split |].
    rewrite performAll_cons.
    destruct (IH (perform c locker).2) as [Hds Hlocks].
    - destruct c as [id' | id']; cbn; intros id held.
      + unfold LockUpload. destruct (locks locker !! id') eqn:Hid'; cbn;
          [apply Htrue |].
        rewrite lookup_insert_Some. intros [[_ <-] | [_ Hid]];
          [reflexivity | now apply (Htrue id)].
      + rewrite lookup_delete_Some. intros [_ Hid]. now apply (Htrue id).
    - split; [| exact Hlocks]. rewrite Hds.
      destruct c as [id' | id']; cbn; [| reflexivity].
      unfold LockUpload. now destruct (locks locker !! id'). }
  apply Hgen. cbn. intros id held. now rewrite lookup_empty.
Qed.

End Facts.

(** "x" is held, "y" is locked and unlocked, "x" is tried again. *)
Lemma held_until_unlocked_witness :
  is_Some (locks (mkMemoryLocker () {["x"%string := true]}) !! "x"%string) /\
  (Unlock "x" ∉ [Lock "y"; Lock "x"; Unlock "y"]) /\
  LockUpload "x"
    (performAll [Lock "y"; Lock "x"; Unlock "y"]
       (mkMemoryLocker () {["x"%string := true]})) =
    (Some ErrFileLocked,
     performAll [Lock "y"; Lock "x"; Unlock "y"]
       (mkMemoryLocker () {["x"%string := true]})).
Proof.
  assert (Hheld : is_Some (locks (mkMemoryLocker () {["x"%string := true]})
                             !! "x"%string)) by (eexists; reflexivity).
  assert (Hcs : Unlock "x" ∉ [Lock "y"; Lock "x"; Unlock "y"]).
  { rewrite !not_elem_of_cons. repeat split; try discriminate.
    apply not_elem_of_nil. }
  split; [exact Hheld | split; [exact Hcs |]].
  exact (proj2 (held_until_unlocked _ "x"%string _ Hheld Hcs)).
Defined.

Lemma calls_on_other_ids_do_not_interfere_witness :
  Unlock "y" <> Lock "x" /\ Unlock "y" <> Unlock "x" /\
  locks (perform (Unlock "y")
           (mkMemoryLocker () {["y"%string := true]})).2 !! "x"%string =
    locks (mkMemoryLocker () {["y"%string := true]}) !! "x"%string.
Proof.
  assert (H1 : Unlock "y" <> Lock "x") by discriminate.
  assert (H2 : Unlock "y" <> Unlock "x") by discriminate.
  split; [exact H1 | split; [exact H2 |]].
  exact (proj1 (calls_on_other_ids_do_not_interfere
                  (mkMemoryLocker () {["y"%string := true]})
                  (Unlock "y") "x"%string H1 H2)).
Defined.

(** One successful lock on a new locker. *)
Lemma performAll_frame_witness :
  locks (performAll [Lock "x"] (NewMemoryLocker ())) !! "x"%string
    = Some true /\
  true = true.
Proof.
  assert (Hx : locks (performAll [Lock "x"] (NewMemoryLocker ()))
                 !! "x"%string = Some true) by reflexivity.
  split; [exact Hx |].
  exact (proj2 (performAll_frame () [Lock "x"]) "x"%string true Hx).
Defined.

End MemoryLockerCalls.

(** ** More on the capacity-bounded store *)

Module LimitedStoreCalls.

Import limitedstore LimitedStoreSpec.

Lemma without_lookup (m : gmap string Z) (l : pairlist) id :
  foldl (fun m k => delete (key k) m) m l !! id =
    if decide (id ∈ key <$> l) then None else m !! id.
Proof.
  revert m. induction l as [| k l IH]; intros m.
  - rewrite decide_False by apply not_elem_of_nil. reflexivity.
  - cbn [foldl]. rewrite IH, fmap_cons.
    destruct (decide (id ∈ key <$> l)) as [Hin | Hnotin].
    + rewrite decide_True by now apply list_elem_of_further. reflexivity.
    + destruct (decide (id = key k)) as [-> | Hne].
      * rewrite lookup_delete_eq, decide_True by apply list_elem_of_here.
        reflexivity.
      * rewrite lookup_delete_ne by congruence.
        rewrite decide_False; [reflexivity |].
        rewrite not_elem_of_cons. now split.
Qed.

Section Eviction.

Context {B : Type} (ds : TerminaterDataStore B).
Variable sort_Sort : (pair -> pair -> bool) -> pairlist -> pairlist.
Hypothesis sort_Sort_perm : forall less l, sort_Sort less l ≡ₚ l.
Hypothesis sort_Sort_sorted : forall less l,
  transitiveOrdering less ->
  StronglySorted (fun a b => less b a = false) (sort_Sort less l).

Implicit Types (store : LimitedStore B) (id : string) (size : Z).
Implicit Types (info : FileInfo) (l : pairlist) (k : pair).

(** *** What a run of the loop leaves *)

Lemma evict_leaves l size store :
  exists evicted rest,
    l = evicted ++ rest /\
    StoreSize (evict ds l size store).2 = StoreSize store /\
    uploads (evict ds l size store).2 =
      foldl (fun m k => delete (key k) m) (uploads store) evicted /\
    ((evict ds l size store).1 = None ->
     fits size (evict ds l size store).2 = true \/ rest = []).
Proof.
  revert store. induction l as [| k l IH]; intros store.
  - exists [], []. cbn. auto.
  - cbn [evict].
    destruct (terminate ds (key k) store) as [r store0] eqn:Hk.
    apply terminate_inv in Hk as (Hsize & Hk).
    destruct r as [err|].
    + destruct Hk as (_ & Hup & _).
      exists [], (k :: l). cbn. rewrite Hsize, Hup. repeat split; discriminate.
    + destruct Hk as (_ & Hup & _).
      destruct (fits size store0) eqn:Hfits.
      * exists [k], l. cbn. rewrite Hsize, Hup. auto.
      * destruct (IH store0) as (evicted & rest & -> & Hsize' & Hup' & Hend).
        exists (k :: evicted), rest. cbn [foldl app].
        rewrite Hsize', Hup', Hsize, Hup. auto.
Qed.

Lemma sortedUploads_all store id h :
  uploads store !! id = Some h ->
  {| key := id; value := h |} ∈ sortedUploads sort_Sort store.
Proof.
  intros Hid. rewrite (sortedUploads_perm sort_Sort sort_Sort_perm).
  unfold rangeUploads. apply list_elem_of_fmap.
  exists (id, h). split; [reflexivity |]. now apply elem_of_map_to_list.
Qed.

(** X5. Whatever [ensureSpace] returns, the uploads it has removed are
    the largest ones: an upload that was tracked and is no longer is at
    least as large as any upload that is still tracked. *)
Theorem ensureSpace_removes_the_largest size store id1 h1 id2 h2 :
  uploads store !! id1 = Some h1 ->
  uploads (ensureSpace ds sort_Sort size store).2 !! id1 = None ->
  uploads (ensureSpace ds sort_Sort size store).2 !! id2 = Some h2 ->
  h2 <= h1.
Proof.
  intros Hid1. unfold ensureSpace.
  destruct (fits size store); cbn; [congruence |].
  destruct (evict_leaves (sortedUploads sort_Sort store) size store)
    as (evicted & rest & Hsorted & _ & -> & _).
  rewrite !without_lookup.
  destruct (decide (id1 ∈ key <$> evicted)) as [Hin1 | _]; [| congruence].
  destruct (decide (id2 ∈ key <$> evicted)) as [| Hnotin2]; [discriminate |].
  intros _ Hid2.
  pose proof (sortedUploads_tracked sort_Sort sort_Sort_perm store) as Htracked.
  pose proof (sortedUploads_descending sort_Sort sort_Sort_sorted store) as Hdesc.
  pose proof (sortedUploads_all store id2 h2 Hid2) as Hin2.
  rewrite Hsorted in Htracked, Hdesc, Hin2.
  apply list_elem_of_fmap in Hin1 as (k1 & -> & Hk1).
  apply Forall_app in Htracked as [Htracked _].
  rewrite Forall_forall in Htracked. specialize (Htracked k1 Hk1).
  assert (h1 = value k1) as -> by congruence.
  apply elem_of_app in Hin2 as [Hin2 | Hin2].
  - exfalso. apply Hnotin2. apply list_elem_of_fmap.
    now exists {| key := id2; value := h2 |}.
  - apply (StronglySorted_app_1_elem_of _ _ _ k1 _ Hdesc Hk1 Hin2).
Qed.

Lemma ensureSpace_nil_cases size store :
  (ensureSpace ds sort_Sort size store).1 = None ->
  fits size (ensureSpace ds sort_Sort size store).2 = true \/
  uploads (ensureSpace ds sort_Sort size store).2 = ∅.
Proof.
  unfold ensureSpace. destruct (fits size store) eqn:Hfits; cbn; [now left |].
  destruct (evict_leaves (sortedUploads sort_Sort store) size store)
    as (evicted & rest & Hsorted & _ & Hup & Hend).
  intros Hnil. destruct (Hend Hnil) as [Hroom | ->]; [now left | right].
  rewrite app_nil_r in Hsorted. subst evicted.
  rewrite Hup. apply map_eq. intros id.
  rewrite without_lookup, lookup_empty.
  destruct (decide _) as [| Hnotin]; [reflexivity |].
  destruct (uploads store !! id) as [h|] eqn:Hid; [| reflexivity].
  exfalso. apply Hnotin. apply list_elem_of_fmap.
  exists {| key := id; value := h |}. split; [reflexivity |].
  now apply sortedUploads_all.
Qed.

(** X6. When [ensureSpace] returns [nil], either there is room for the
    declared size now, or no upload is tracked any more; in the second
    case [usedSize] is 0 if it was the sum of the tracked sizes at the
    start. *)
Theorem ensureSpace_nil_room_or_nothing_left size store :
  (ensureSpace ds sort_Sort size store).1 = None ->
  fits size (ensureSpace ds sort_Sort size store).2 = true \/
  (uploads (ensureSpace ds sort_Sort size store).2 = ∅ /\
   (accounted store ->
    usedSize (ensureSpace ds sort_Sort size store).2 = 0)).
Proof.
  intros Hnil. destruct (ensureSpace_nil_cases size store Hnil)
    as [Hroom | Hempty]; [now left | right].
  split; [exact Hempty |]. intros Hacc.
  pose proof (ensureSpace_accounted ds sort_Sort size store Hacc) as Hacc'.
  unfold accounted, sumSizes in Hacc'.
  now rewrite Hempty, exactSum_empty in Hacc'.
Qed.

Lemma ensureSpace_StoreSize size store :
  StoreSize (ensureSpace ds sort_Sort size store).2 = StoreSize store.
Proof.
  unfold ensureSpace. destruct (fits size store); [reflexivity |].
  now destruct (evict_leaves (sortedUploads sort_Sort store) size store)
    as (_ & _ & _ & -> & _).
Qed.

(** X7. The capacity is kept whenever the declared size alone fits in
    it: on a store whose [usedSize] is the sum of the tracked sizes, a
    [NewUpload] of a size that is an [int64] no larger than [StoreSize]
    leaves, when it succeeds, [usedSize] no larger than [StoreSize]. *)
Theorem NewUpload_within_capacity info store id store' :
  accounted store ->
  is_int64 (Size info) ->
  Size info <= StoreSize store ->
  NewUpload ds sort_Sort info store = (Ok id, store') ->
  usedSize store' <= StoreSize store' /\ StoreSize store' = StoreSize store.
Proof.
  intros Hacc Hint Hsize. unfold NewUpload.
  pose proof (ensureSpace_accounted ds sort_Sort (Size info) store Hacc) as Hacc1.
  pose proof (ensureSpace_nil_cases (Size info) store) as Hroom.
  pose proof (ensureSpace_StoreSize (Size info) store) as Hcap.
  destruct (ensureSpace ds sort_Sort (Size info) store) as [[err|] store1];
    [discriminate |].
  cbn in Hacc1, Hroom, Hcap. unfold delegate.
  destruct (ds_NewUpload ds info (dataStore store1)) as [[id'|err] b];
    [| discriminate].
  intros [= _ <-]; cbn. split; [| exact Hcap].
  destruct (Hroom eq_refl) as [Hfits | Hempty].
  - unfold fits in Hfits. now apply Z.leb_le in Hfits.
  - unfold accounted, sumSizes in Hacc1.
    rewrite Hempty, exactSum_empty in Hacc1. rewrite Hacc1.
    change (wrap64 0) with 0. rewrite Z.add_0_l, wrap64_id by exact Hint. lia.
Qed.

End Eviction.

Section Calls.

Context {B : Type} (ds : TerminaterDataStore B).
Variable sort_Sort : (pair -> pair -> bool) -> pairlist -> pairlist.

Implicit Types (store : LimitedStore B) (id : string) (size : Z).
Implicit Types (info : FileInfo) (l : pairlist) (k : pair).

(** *** Sequences with failing calls *)

(** X8. The accounting survives failures: from a store made by [New],
    after each call of any sequence of [NewUpload] and [Terminate] calls,
    failed ones and evictions cut short by a failed termination included,
    [usedSize] is the [int64] sum of the tracked sizes, as long as every
    id that the backend hands out is one that is not tracked. *)
Theorem accounting_survives_failures storeSize backend ops :
  allFresh ds sort_Sort ops (New storeSize backend) ->
  Forall accounted (run ds sort_Sort ops (New storeSize backend)).
Proof.
  assert (Hnew : accounted (New storeSize backend)).
  { unfold accounted, sumSizes, New; cbn. now rewrite exactSum_empty. }
  revert Hnew. generalize (New storeSize backend).
  induction ops as [| o ops IH]; intros store Hacc Hops; cbn.
  - constructor.
  - destruct Hops as [Hfresh Hops].
    pose proof (step_accounted ds sort_Sort o store Hacc Hfresh) as Hacc'.
    constructor; [exact Hacc' |]. now apply IH.
Qed.

Lemma evict_frame l size store :
  StoreSize (evict ds l size store).2 = StoreSize store /\
  (is_int64 (usedSize store) -> is_int64 (usedSize (evict ds l size store).2)) /\
  uploads (evict ds l size store).2 ⊆ uploads store.
Proof.
  revert store. induction l as [| k l IH]; intros store; cbn; [auto |].
  destruct (terminate ds (key k) store) as [r store0] eqn:Hk.
  apply terminate_inv in Hk as (Hsize & Hk).
  assert (Hstep : (is_int64 (usedSize store) -> is_int64 (usedSize store0)) /\
                  uploads store0 ⊆ uploads store).
  { destruct r; destruct Hk as (_ & -> & ->); split; auto.
    - intros _. apply wrap64_int64.
    - apply delete_subseteq. }
  destruct Hstep as [Hint Hsub].
  destruct r as [err|]; [cbn; auto |].
  destruct (fits size store0); [cbn; auto |].
  destruct (IH store0) as (Hsize' & Hint' & Hsub').
  split; [congruence |]. split; [auto |]. now transitivity (uploads store0).
Qed.

Lemma ensureSpace_frame size store :
  StoreSize (ensureSpace ds sort_Sort size store).2 = StoreSize store /\
  (is_int64 (usedSize store) ->
   is_int64 (usedSize (ensureSpace ds sort_Sort size store).2)) /\
  uploads (ensureSpace ds sort_Sort size store).2 ⊆ uploads store.
Proof.
  unfold ensureSpace. destruct (fits size store); [auto | apply evict_frame].
Qed.

Lemma step_frame o store :
  StoreSize (step ds sort_Sort o store) = StoreSize store /\
  (is_int64 (usedSize store) ->
   is_int64 (usedSize (step ds sort_Sort o store))).
Proof.
  destruct o as [info | id]; cbn [step].
  - unfold NewUpload.
    destruct (ensureSpace_frame (Size info) store) as (Hsize & Hint & _).
    destruct (ensureSpace ds sort_Sort (Size info) store) as [[err|] store1];
      cbn in *; [auto |].
    unfold delegate.
    destruct (ds_NewUpload ds info (dataStore store1)) as [[id|err] b];
      cbn; split; auto.
    intros _. apply wrap64_int64.
  - unfold Terminate.
    destruct (terminate ds id store) as [r store0] eqn:Hid.
    apply terminate_inv in Hid as (Hsize & Hid). cbn.
    split; [exact Hsize |].
    destruct r; destruct Hid as (_ & _ & ->); auto.
    intros _. apply wrap64_int64.
Qed.

(** X9. No call changes the capacity, and [usedSize] stays an [int64]:
    after each call of any sequence on a store made by [New], succeeding
    or not, [StoreSize] is the size given to [New]. *)
Theorem capacity_is_fixed storeSize backend ops :
  Forall (fun store => StoreSize store = storeSize /\ is_int64 (usedSize store))
         (run ds sort_Sort ops (New storeSize backend)).
Proof.
  assert (Hnew : StoreSize (New storeSize backend) = storeSize /\
                 is_int64 (usedSize (New storeSize backend))).
  { split; [reflexivity |]. unfold is_int64; cbn. lia. }
  revert Hnew. generalize (New storeSize backend).
  induction ops as [| o ops IH]; intros store [Hsize Hint]; cbn.
  - constructor.
  - destruct (step_frame o store) as [Hsize' Hint'].
    assert (Hnext : StoreSize (step ds sort_Sort o store) = storeSize /\
                    is_int64 (usedSize (step ds sort_Sort o store))).
    { split; [congruence | auto]. }
    constructor; [exact Hnext | now apply IH].
Qed.

(** X10. [NewUpload] tracks at most the id it returns: an id tracked
    after the call either was tracked before it with the same size, or is
    the id returned, recorded with the declared size.  A call that
    returns an error tracks nothing new, and a call that returns an id
    tracks it. *)
Theorem NewUpload_tracks_only_its_id info store :
  (forall id h,
     uploads (NewUpload ds sort_Sort info store).2 !! id = Some h ->
     uploads store !! id = Some h \/
     ((NewUpload ds sort_Sort info store).1 = Ok id /\ h = Size info)) /\
  (forall err,
     (NewUpload ds sort_Sort info store).1 = Err err ->
     uploads (NewUpload ds sort_Sort info store).2 ⊆ uploads store) /\
  (forall id,
     (NewUpload ds sort_Sort info store).1 = Ok id ->
     uploads (NewUpload ds sort_Sort info store).2 !! id = Some (Size info)).
Proof.
  unfold NewUpload.
  destruct (ensureSpace_frame (Size info) store) as (_ & _ & Hsub).
  destruct (ensureSpace ds sort_Sort (Size info) store) as [[err|] store1];
    cbn in Hsub.
  - cbn. split; [| split]; [| auto | discriminate].
    intros id h Hid. left. now apply (lookup_weaken _ _ _ _ Hid).
  - unfold delegate.
    destruct (ds_NewUpload ds info (dataStore store1)) as [[id'|err] b]; cbn.
    + split; [| split]; [| discriminate |].
      * intros id h. rewrite lookup_insert_Some.
        intros [[<- <-] | [_ Hid]]; [now right | left].
        now apply (lookup_weaken _ _ _ _ Hid).
      * intros id [= <-]. apply lookup_insert_eq.
    + split; [| split]; [| auto | discriminate].
      intros id h Hid. left. now apply (lookup_weaken _ _ _ _ Hid).
Qed.

(** X11. Creating and terminating is a round trip: on a store with room
    for the declared size, when the backend's [NewUpload] returns an id
    that is not tracked and its [Terminate] of that id succeeds,
    [Terminate] after [NewUpload] leaves [uploads] and [usedSize] as they
    were before the two calls. *)
Theorem NewUpload_Terminate_roundtrip info store id b1 b2 :
  fits (Size info) store = true ->
  is_int64 (usedSize store) ->
  uploads store !! id = None ->
  ds_NewUpload ds info (dataStore store) = (Ok id, b1) ->
  ds_Terminate ds id b1 = (None, b2) ->
  Terminate ds id (NewUpload ds sort_Sort info store).2 =
    (None, {| StoreSize := StoreSize store; dataStore := b2;
              uploads := uploads store; usedSize := usedSize store |}).
Proof.
  intros Hroom Hint Hfresh Hb1 Hb2.
  unfold NewUpload, ensureSpace. rewrite Hroom. unfold delegate. rewrite Hb1.
  unfold Terminate. cbn.
  rewrite (terminate_ok ds id _ b2) by exact Hb2. cbn.
  rewrite lookup_insert_eq, delete_insert_id by exact Hfresh. cbn.
  rewrite wrap64_sub_l.
  replace (usedSize store + Size info - Size info) with (usedSize store) by lia.
  now rewrite wrap64_id.
Qed.

(** X12. What a reused id costs: when the backend's [NewUpload] returns
    an id that is tracked already, with size [h], on a store with room
    whose [usedSize] is the sum of the tracked sizes, the entry is
    overwritten and [usedSize] ends [h] above the sum of the tracked
    sizes (in [int64]). *)
Theorem NewUpload_reused_id_overcounts info store id h b :
  accounted store ->
  fits (Size info) store = true ->
  uploads store !! id = Some h ->
  ds_NewUpload ds info (dataStore store) = (Ok id, b) ->
  uploads (NewUpload ds sort_Sort info store).2 =
    <[id := Size info]> (uploads store) /\
  usedSize (NewUpload ds sort_Sort info store).2 =
    wrap64 (sumSizes (uploads (NewUpload ds sort_Sort info store).2) + h).
Proof.
  intros Hacc Hroom Hid Hb.
  unfold NewUpload, ensureSpace. rewrite Hroom. unfold delegate. rewrite Hb.
  cbn. split; [reflexivity |].
  unfold accounted, sumSizes in *. rewrite Hacc, !wrap64_add_l.
  rewrite <- (insert_delete_eq (uploads store)).
  rewrite exactSum_insert by apply lookup_delete_eq.
  rewrite (exactSum_delete _ id h Hid). f_equal. lia.
Qed.

End Calls.

Lemma exactSum_nonneg (m : gmap string Z) :
  (forall id h, m !! id = Some h -> 0 <= h) -> 0 <= exactSum m.
Proof.
  induction m as [| id h m Hid _ IH] using map_first_key_ind.
  - intros _. now rewrite exactSum_empty.
  - intros Hm. rewrite exactSum_insert by exact Hid.
    assert (0 <= h) by (apply (Hm id); apply lookup_insert_eq).
    assert (0 <= exactSum m); [| lia].
    apply IH. intros id' h' Hid'. apply (Hm id').
    rewrite lookup_insert_ne; [exact Hid' | congruence].
Qed.

Section Capacity.

Context {B : Type} (ds : TerminaterDataStore B).
Variable sort_Sort : (pair -> pair -> bool) -> pairlist -> pairlist.
Hypothesis sort_Sort_perm : forall less l, sort_Sort less l ≡ₚ l.

Implicit Types (store : LimitedStore B) (id : string) (size : Z).

Lemma terminate_within capacity id store :
  capacity < 2 ^ 62 ->
  withinCapacity capacity store -> withinCapacity capacity (terminate ds id store).2.
Proof.
  intros Hcap (Hsize & Hpos & Hused & Hle).
  destruct (terminate ds id store) as [r store'] eqn:Hterm.
  apply terminate_inv in Hterm as [Hsize' Hterm]. cbn.
  destruct r as [err|]; destruct Hterm as (_ & Hup & Hused').
  - unfold withinCapacity. rewrite Hsize', Hup, Hused'. auto.
  - assert (Hpos' : forall id' h, uploads store' !! id' = Some h -> 0 <= h).
    { intros id' h. rewrite Hup, lookup_delete_Some. intros [_ Hid'].
      now apply (Hpos id'). }
    pose proof (exactSum_nonneg _ Hpos') as Hsum'.
    pose proof (exactSum_nonneg _ Hpos) as Hsum.
    assert (Hexact : usedSize store - default 0 (uploads store !! id) =
                     exactSum (uploads store')).
    { rewrite Hup, Hused.
      destruct (uploads store !! id) as [h|] eqn:Hid; cbn.
      - rewrite (exactSum_delete _ id h Hid). lia.
      - rewrite delete_id by exact Hid. lia. }
    assert (Hh : 0 <= default 0 (uploads store !! id)).
    { destruct (uploads store !! id) as [h|] eqn:Hid; cbn; [| lia].
      now apply (Hpos id). }
    unfold withinCapacity. rewrite Hsize', Hused', Hexact.
    rewrite wrap64_id by (unfold is_int64; lia).
    repeat split; auto. lia.
Qed.

Lemma evict_within capacity l size store :
  capacity < 2 ^ 62 ->
  withinCapacity capacity store -> withinCapacity capacity (evict ds l size store).2.
Proof.
  intros Hcap. revert store.
  induction l as [| k l IH]; intros store Hin; cbn; [exact Hin |].
  pose proof (terminate_within capacity (key k) store Hcap Hin) as Hin'.
  destruct (terminate ds (key k) store) as [[err|] store']; [exact Hin' |].
  destruct (fits size store'); [exact Hin' |]. now apply IH.
Qed.

Lemma step_within capacity o store :
  capacity < 2 ^ 62 ->
  sizeWithin capacity o ->
  freshId ds sort_Sort o store ->
  withinCapacity capacity store -> withinCapacity capacity (step ds sort_Sort o store).
Proof.
  intros Hcap Ho Hfresh Hin. destruct o as [info | id]; cbn [step].
  - cbn in Ho, Hfresh. unfold NewUpload in *.
    pose proof (ensureSpace_nil_cases ds sort_Sort sort_Sort_perm
                  (Size info) store) as Hroom.
    pose proof (fun id' => ensureSpace_untracked ds sort_Sort
                             (Size info) store id') as Hsub.
    assert (Hin1 : withinCapacity capacity
                     (ensureSpace ds sort_Sort (Size info) store).2).
    { unfold ensureSpace. destruct (fits (Size info) store); [exact Hin |].
      now apply evict_within. }
    destruct (ensureSpace ds sort_Sort (Size info) store) as [[err|] store1];
      [exact Hin1 |].
    cbn in Hroom, Hsub, Hin1. unfold delegate in *.
    destruct (ds_NewUpload ds info (dataStore store1)) as [[id|err] b];
      [| exact Hin1].
    cbn in *. destruct Hin1 as (Hsize & Hpos & Hused & Hle).
    pose proof (exactSum_nonneg _ Hpos) as Hsum.
    assert (Hid : uploads store1 !! id = None) by now apply Hsub, Hfresh.
    assert (Hfits : usedSize store1 + Size info <= capacity).
    { destruct (Hroom eq_refl) as [Hfits | Hempty].
      - unfold fits in Hfits. apply Z.leb_le in Hfits.
        rewrite wrap64_id in Hfits by (unfold is_int64; lia). lia.
      - rewrite Hused, Hempty, exactSum_empty. lia. }
    unfold withinCapacity; cbn.
    rewrite wrap64_id by (unfold is_int64; lia).
    rewrite exactSum_insert by exact Hid.
    repeat split; auto; [| lia].
    intros id' h. rewrite lookup_insert_Some.
    intros [[_ <-] | [_ Hid']]; [lia | now apply (Hpos id')].
  - now apply terminate_within.
Qed.

(** X18. The capacity is a hard limit when every upload fits in it on
    its own: on a store made by [New] with a capacity between 0 and 2^62,
    through any sequence of [NewUpload] and [Terminate] calls, succeeding
    or not, whose declared sizes are between 0 and the capacity and in
    which the backend hands out ids that are not tracked, [usedSize] is
    after each call the sum of the tracked sizes over the integers, not
    negative and no larger than [StoreSize]. *)
Theorem capacity_is_kept storeSize backend ops :
  0 <= storeSize < 2 ^ 62 ->
  Forall (sizeWithin storeSize) ops ->
  allFresh ds sort_Sort ops (New storeSize backend) ->
  Forall (fun store =>
            usedSize store = exactSum (uploads store) /\
            0 <= usedSize store <= StoreSize store)
         (run ds sort_Sort ops (New storeSize backend)).
Proof.
  intros [Hcap0 Hcap] Hsizes.
  assert (Hnew : withinCapacity storeSize (New storeSize backend)).
  { unfold withinCapacity, New; cbn. rewrite exactSum_empty.
    repeat split; auto. intros id h. now rewrite lookup_empty. }
  revert Hnew. generalize (New storeSize backend).
  induction Hsizes as [| o ops Ho _ IH]; intros store Hin Hfresh; cbn.
  - constructor.
  - destruct Hfresh as [Hfresh Hrest].
    pose proof (step_within storeSize o store Hcap Ho Hfresh Hin) as Hin'.
    constructor; [| now apply IH].
    destruct Hin' as (Hsize & Hpos & Hused & Hle).
    split; [exact Hused |]. rewrite Hsize. split; [| exact Hle].
    rewrite Hused. now apply exactSum_nonneg.
Qed.

End Capacity.

(** *** The theorems at work on the demo store *)

(** The spec's eviction example: "a", of size 10, goes and "d", of size 5,
    stays. *)
Lemma ensureSpace_removes_the_largest_witness :
  uploads demoTracked !! "a"%string = Some 10 /\
  uploads (ensureSpace (demoStore []) insertionSort 35 demoTracked).2
    !! "a"%string = None /\
  uploads (ensureSpace (demoStore []) insertionSort 35 demoTracked).2
    !! "d"%string = Some 5 /\
  5 <= 10.
Proof.
  assert (H1 : uploads demoTracked !! "a"%string = Some 10)
    by (vm_compute; reflexivity).
  assert (H2 : uploads (ensureSpace (demoStore []) insertionSort 35
                          demoTracked).2 !! "a"%string = None)
    by (vm_compute; reflexivity).
  assert (H3 : uploads (ensureSpace (demoStore []) insertionSort 35
                          demoTracked).2 !! "d"%string = Some 5)
    by (vm_compute; reflexivity).
  split; [exact H1 | split; [exact H2 | split; [exact H3 |]]].
  exact (ensureSpace_removes_the_largest (demoStore []) insertionSort
           insertionSort_perm insertionSort_sorted
           35 demoTracked "a"%string 10 "d"%string 5 H1 H2 H3).
Defined.

(** A request for 100 in a store of capacity 5 that tracks one upload. *)
Lemma ensureSpace_nil_room_or_nothing_left_witness :
  (ensureSpace (demoStore []) insertionSort 100 demoSmall).1 = None /\
  (fits 100 (ensureSpace (demoStore []) insertionSort 100 demoSmall).2 = true \/
   (uploads (ensureSpace (demoStore []) insertionSort 100 demoSmall).2 = ∅ /\
    (accounted demoSmall ->
     usedSize (ensureSpace (demoStore []) insertionSort 100 demoSmall).2
       = 0))).
Proof.
  assert (Hnil : (ensureSpace (demoStore []) insertionSort 100 demoSmall).1
                 = None) by (vm_compute; reflexivity).
  split; [exact Hnil |].
  exact (ensureSpace_nil_room_or_nothing_left (demoStore []) insertionSort
           insertionSort_perm 100 demoSmall Hnil).
Defined.

(** A request for 90 in a store of capacity 100 that tracks 140. *)
Lemma NewUpload_within_capacity_witness :
  accounted demoPinned /\
  is_int64 90 /\
  90 <= StoreSize demoPinned /\
  (NewUpload (demoStore []) insertionSort (mkFileInfo "" 90) demoPinned).1
    = Ok "a"%string /\
  usedSize (NewUpload (demoStore []) insertionSort (mkFileInfo "" 90)
              demoPinned).2 <= 100.
Proof.
  assert (Hacc : accounted demoPinned) by (vm_compute; reflexivity).
  assert (Hint : is_int64 (Size (mkFileInfo "" 90)))
    by (unfold is_int64; cbn; lia).
  assert (Hsize : Size (mkFileInfo "" 90) <= StoreSize demoPinned)
    by (cbn; lia).
  assert (Hnew : NewUpload (demoStore []) insertionSort (mkFileInfo "" 90)
                   demoPinned =
                 (Ok "a"%string,
                  (NewUpload (demoStore []) insertionSort (mkFileInfo "" 90)
                     demoPinned).2)) by (vm_compute; reflexivity).
  split; [exact Hacc | split; [exact Hint | split; [exact Hsize |]]].
  split; [now rewrite Hnew |].
  destruct (NewUpload_within_capacity (demoStore []) insertionSort
              insertionSort_perm _ _ _ _ Hacc Hint Hsize Hnew) as [Hle Hcap].
  rewrite Hcap in Hle. exact Hle.
Defined.

(** A third upload whose eviction fails on the pinned "b", a termination
    that fails, and a small upload after them. *)
Lemma accounting_survives_failures_witness :
  allFresh (demoStore ["b"%string]) insertionSort
    [OpNewUpload (mkFileInfo "" 60); OpNewUpload (mkFileInfo "" 50);
     OpNewUpload (mkFileInfo "" 70); OpTerminate "b";
     OpNewUpload (mkFileInfo "" 10)]
    (New 100 demoInit) /\
  (NewUpload (demoStore ["b"%string]) insertionSort (mkFileInfo "" 70)
     (step (demoStore ["b"%string]) insertionSort
        (OpNewUpload (mkFileInfo "" 50))
        (step (demoStore ["b"%string]) insertionSort
           (OpNewUpload (mkFileInfo "" 60)) (New 100 demoInit)))).1
    = Err (ErrBackend "pinned") /\
  Forall accounted
    (run (demoStore ["b"%string]) insertionSort
       [OpNewUpload (mkFileInfo "" 60); OpNewUpload (mkFileInfo "" 50);
        OpNewUpload (mkFileInfo "" 70); OpTerminate "b";
        OpNewUpload (mkFileInfo "" 10)]
       (New 100 demoInit)).
Proof.
  assert (Hops : allFresh (demoStore ["b"%string]) insertionSort
            [OpNewUpload (mkFileInfo "" 60); OpNewUpload (mkFileInfo "" 50);
             OpNewUpload (mkFileInfo "" 70); OpTerminate "b";
             OpNewUpload (mkFileInfo "" 10)]
            (New 100 demoInit)).
  { cbn [allFresh freshId].
    repeat match goal with
    | |- _ /\ _ => split
    | |- True => exact I
    | |- forall _, _ -> _ =>
        let H := fresh in
        intros ? H; vm_compute in H;
        first [discriminate H | injection H as <-; vm_compute; reflexivity]
    end. }
  split; [exact Hops | split; [vm_compute; reflexivity |]].
  exact (accounting_survives_failures (demoStore ["b"%string]) insertionSort
           100 demoInit _ Hops).
Defined.

(** A call that fails in the eviction, and a call that succeeds. *)
Lemma NewUpload_tracks_only_its_id_witness :
  ((NewUpload (demoStore ["b"%string]) insertionSort (mkFileInfo "" 90)
      demoPinned).1 = Err (ErrBackend "pinned") /\
   uploads (NewUpload (demoStore ["b"%string]) insertionSort
              (mkFileInfo "" 90) demoPinned).2 ⊆ uploads demoPinned) /\
  ((NewUpload (demoStore []) insertionSort (mkFileInfo "" 90) demoPinned).1
     = Ok "a"%string /\
   uploads (NewUpload (demoStore []) insertionSort (mkFileInfo "" 90)
              demoPinned).2 !! "a"%string = Some 90).
Proof.
  assert (Herr : (NewUpload (demoStore ["b"%string]) insertionSort
                    (mkFileInfo "" 90) demoPinned).1
                 = Err (ErrBackend "pinned")) by (vm_compute; reflexivity).
  assert (Hok : (NewUpload (demoStore []) insertionSort (mkFileInfo "" 90)
                   demoPinned).1 = Ok "a"%string) by (vm_compute; reflexivity).
  split; (split; [assumption |]).
  - exact (proj1 (proj2 (NewUpload_tracks_only_its_id (demoStore ["b"%string])
                           insertionSort (mkFileInfo "" 90) demoPinned))
             _ Herr).
  - exact (proj2 (proj2 (NewUpload_tracks_only_its_id (demoStore [])
                           insertionSort (mkFileInfo "" 90) demoPinned))
             _ Hok).
Defined.

(** The first upload of a new store, terminated at once. *)
Lemma NewUpload_Terminate_roundtrip_witness :
  fits 30 (New 100 demoInit) = true /\
  is_int64 (usedSize (New 100 demoInit)) /\
  uploads (New 100 demoInit) !! "a"%string = None /\
  Terminate (demoStore []) "a"
    (NewUpload (demoStore []) insertionSort (mkFileInfo "" 30)
       (New 100 demoInit)).2 =
    (None, {| StoreSize := 100;
              dataStore :=
                {| issued := 1;
                   journal := ["NewUpload"; "Terminate a"]%string |};
              uploads := ∅; usedSize := 0 |}).
Proof.
  assert (Hroom : fits (Size (mkFileInfo "" 30)) (New 100 demoInit) = true)
    by (vm_compute; reflexivity).
  assert (Hint : is_int64 (usedSize (New 100 demoInit)))
    by (unfold is_int64; cbn; lia).
  assert (Hfresh : uploads (New 100 demoInit) !! "a"%string = None)
    by reflexivity.
  split; [exact Hroom | split; [exact Hint | split; [exact Hfresh |]]].
  exact (NewUpload_Terminate_roundtrip (demoStore []) insertionSort
           (mkFileInfo "" 30) (New 100 demoInit) "a"%string
           {| issued := 1; journal := ["NewUpload"%string] |}
           {| issued := 1; journal := ["NewUpload"; "Terminate a"]%string |}
           Hroom Hint Hfresh eq_refl eq_refl).
Defined.

(** The demo backend starts again at "a" while "a" is tracked with 10. *)
Lemma NewUpload_reused_id_overcounts_witness :
  accounted (mkLimitedStore 100 demoInit {["a"%string := 10]} 10) /\
  fits 7 (mkLimitedStore 100 demoInit {["a"%string := 10]} 10) = true /\
  uploads (mkLimitedStore 100 demoInit {["a"%string := 10]} 10)
    !! "a"%string = Some 10 /\
  uploads (NewUpload (demoStore []) insertionSort (mkFileInfo "" 7)
             (mkLimitedStore 100 demoInit {["a"%string := 10]} 10)).2
    = <["a"%string := 7]> {["a"%string := 10]} /\
  usedSize (NewUpload (demoStore []) insertionSort (mkFileInfo "" 7)
              (mkLimitedStore 100 demoInit {["a"%string := 10]} 10)).2 = 17.
Proof.
  assert (Hacc : accounted (mkLimitedStore 100 demoInit
                              {["a"%string := 10]} 10))
    by (vm_compute; reflexivity).
  assert (Hroom : fits (Size (mkFileInfo "" 7))
                    (mkLimitedStore 100 demoInit {["a"%string := 10]} 10)
                  = true) by (vm_compute; reflexivity).
  assert (Hid : uploads (mkLimitedStore 100 demoInit {["a"%string := 10]} 10)
                  !! "a"%string = Some 10) by (vm_compute; reflexivity).
  split; [exact Hacc | split; [exact Hroom | split; [exact Hid |]]].
  destruct (NewUpload_reused_id_overcounts (demoStore []) insertionSort
              (mkFileInfo "" 7) _ "a"%string 10
              {| issued := 1; journal := ["NewUpload"%string] |}
              Hacc Hroom Hid eq_refl) as [Hup Hused].
  split; [exact Hup |]. rewrite Hused. vm_compute. reflexivity.
Defined.

(** Uploads of 60, 50 and 10 in a store of capacity 100, with a
    termination in between. *)
Lemma capacity_is_kept_witness :
  0 <= 100 < 2 ^ 62 /\
  Forall (sizeWithin 100)
    [OpNewUpload (mkFileInfo "" 60); OpNewUpload (mkFileInfo "" 50);
     OpTerminate "a"; OpNewUpload (mkFileInfo "" 10)] /\
  allFresh (demoStore []) insertionSort
    [OpNewUpload (mkFileInfo "" 60); OpNewUpload (mkFileInfo "" 50);
     OpTerminate "a"; OpNewUpload (mkFileInfo "" 10)]
    (New 100 demoInit) /\
  Forall (fun store =>
            usedSize store = exactSum (uploads store) /\
            0 <= usedSize store <= StoreSize store)
    (run (demoStore []) insertionSort
       [OpNewUpload (mkFileInfo "" 60); OpNewUpload (mkFileInfo "" 50);
        OpTerminate "a"; OpNewUpload (mkFileInfo "" 10)]
       (New 100 demoInit)).
Proof.
  assert (Hcap : 0 <= 100 < 2 ^ 62) by lia.
  assert (Hsizes : Forall (sizeWithin 100)
            [OpNewUpload (mkFileInfo "" 60); OpNewUpload (mkFileInfo "" 50);
             OpTerminate "a"; OpNewUpload (mkFileInfo "" 10)]).
  { repeat constructor; cbn; lia. }
  assert (Hops : allFresh (demoStore []) insertionSort
            [OpNewUpload (mkFileInfo "" 60); OpNewUpload (mkFileInfo "" 50);
             OpTerminate "a"; OpNewUpload (mkFileInfo "" 10)]
            (New 100 demoInit)).
  { cbn [allFresh freshId].
    repeat match goal with
    | |- _ /\ _ => split
    | |- True => exact I
    | |- forall _, _ -> _ =>
        let H := fresh in
        intros ? H; vm_compute in H;
        first [discriminate H | injection H as <-; vm_compute; reflexivity]
    end. }
  split; [exact Hcap | split; [exact Hsizes | split; [exact Hops |]]].
  exact (capacity_is_kept (demoStore []) insertionSort insertionSort_perm
           100 demoInit _ Hcap Hsizes Hops).
Defined.

End LimitedStoreCalls.

(** ** [pairlist] as a [sort.Interface] *)

Module PairlistSpec.

Import limitedstore LimitedStoreSpec.

Lemma index_Some (p : list pair) i a :
  index p i = Some a <-> 0 <= i /\ p !! Z.to_nat i = Some a.
Proof.
  unfold index, pairlist. case_bool_decide; [tauto |].
  split; [discriminate | tauto].
Qed.

Lemma swap_lookup (p : list pair) (i j : nat) a b n :
  p !! i = Some a -> p !! j = Some b ->
  <[j := a]> (<[i := b]> p) !! n =
    p !! (if decide (n = i) then j else if decide (n = j) then i else n).
Proof.
  intros Hi Hj.
  pose proof (lookup_lt_Some _ _ _ Hi) as Hilt.
  pose proof (lookup_lt_Some _ _ _ Hj) as Hjlt.
  destruct (decide (n = j)) as [-> | Hnj].
  - rewrite list_lookup_insert_eq by now rewrite length_insert.
    destruct (decide (j = i)) as [-> | _]; congruence.
  - rewrite list_lookup_insert_ne by congruence.
    destruct (decide (n = i)) as [-> | Hni].
    + rewrite list_lookup_insert_eq by exact Hilt. congruence.
    + now rewrite list_lookup_insert_ne by congruence.
Qed.

(** X13. [Swap] within the bounds exchanges the two elements and leaves
    the others where they are, so the slice keeps its length and its
    elements, and a second [Swap] of the same indices undoes the first;
    with an index out of bounds it panics. *)
Theorem Swap_exchanges (p : list pair) i j :
  (0 <= i < Len p -> 0 <= j < Len p ->
   exists p',
     Swap i j p = Some p' /\
     Len p' = Len p /\ p' ≡ₚ p /\
     index p' i = index p j /\ index p' j = index p i /\
     (forall n, n <> i -> n <> j -> index p' n = index p n) /\
     Swap i j p' = Some p) /\
  (~ (0 <= i < Len p /\ 0 <= j < Len p) -> Swap i j p = None).
Proof.
  unfold Len. split.
  - intros Hi Hj.
    destruct (lookup_lt_is_Some_2 p (Z.to_nat i)) as [a Ha]; [lia |].
    destruct (lookup_lt_is_Some_2 p (Z.to_nat j)) as [b Hb]; [lia |].
    assert (Hpi : index p i = Some a) by (apply index_Some; split; [lia | exact Ha]).
    assert (Hpj : index p j = Some b) by (apply index_Some; split; [lia | exact Hb]).
    pose proof (fun n => swap_lookup p (Z.to_nat i) (Z.to_nat j) a b n Ha Hb)
      as Hlook.
    set (p' := <[Z.to_nat j := a]> (<[Z.to_nat i := b]> p)) in *.
    assert (Hlen : length p' = length p) by (unfold p'; now rewrite !length_insert).
    assert (Hidx : forall n, index p' n =
              index p (if decide (n = i) then j
                       else if decide (n = j) then i else n)).
    { intros n. unfold index, pairlist. case_bool_decide as Hn.
      - rewrite (Hlook (Z.to_nat n)).
        destruct (decide (n = i)) as [-> | Hni].
        + rewrite decide_True by reflexivity.
          rewrite bool_decide_eq_true_2 by lia. reflexivity.
        + rewrite (decide_False (P := Z.to_nat n = Z.to_nat i)) by lia.
          destruct (decide (n = j)) as [-> | Hnj].
          * rewrite decide_True by reflexivity.
            rewrite bool_decide_eq_true_2 by lia. reflexivity.
          * rewrite (decide_False (P := Z.to_nat n = Z.to_nat j)) by lia.
            rewrite bool_decide_eq_true_2 by lia. reflexivity.
      - destruct (decide (n = i)); [lia |]. destruct (decide (n = j)); [lia |].
        now rewrite bool_decide_eq_false_2. }
    exists p'. split; [unfold Swap, pairlist; now rewrite Hpi, Hpj |].
    split; [now rewrite Hlen |].
    assert (Hii : index p' i = index p j)
      by (rewrite Hidx, decide_True by reflexivity; reflexivity).
    assert (Hjj : index p' j = index p i).
    { rewrite Hidx. destruct (decide (j = i)) as [-> | _]; [reflexivity |].
      now rewrite decide_True. }
    split; [| split; [exact Hii | split; [exact Hjj | split]]].
    + apply Permutation_inj. split; [exact Hlen |].
      exists (fun n => if decide (n = Z.to_nat i) then Z.to_nat j
                       else if decide (n = Z.to_nat j) then Z.to_nat i else n).
      split.
      * intros x y. repeat case_decide; lia.
      * intros n. apply Hlook.
    + intros n Hni Hnj. rewrite Hidx. now rewrite !decide_False.
    + unfold Swap, pairlist. rewrite Hii, Hjj, Hpi, Hpj. f_equal.
      apply list_eq. intros n.
      rewrite (swap_lookup p' (Z.to_nat i) (Z.to_nat j) b a).
      * rewrite Hlook. f_equal. repeat case_decide; lia.
      * assert (Hb' : index p' i = Some b) by congruence.
        apply index_Some in Hb'. tauto.
      * assert (Ha' : index p' j = Some a) by congruence.
        apply index_Some in Ha'. tauto.
  - intros Hout. unfold Swap.
    destruct (index p i) as [a|] eqn:Hpi; [| reflexivity].
    destruct (index p j) as [b|] eqn:Hpj; [| reflexivity].
    exfalso. apply Hout.
    apply index_Some in Hpi as [Hi Ha]. apply index_Some in Hpj as [Hj Hb].
    apply lookup_lt_Some in Ha, Hb. lia.
Qed.

(** X14. [Less] is an ordering of the kind [sort.Sort] asks for
    (irreflexive, transitive, and with a transitive "not less"), on
    indices it is the comparison of the two sizes, and it is not a total
    order on uploads: two uploads of the same size are not [Less] either
    way, whatever their ids. *)
Theorem Less_is_an_ordering :
  transitiveOrdering Less /\
  transitiveOrdering (Reverse Less) /\
  (forall a b, Less a b = false -> Less b a = false -> value a = value b) /\
  (forall (p : list pair) i j a b,
     index p i = Some a -> index p j = Some b ->
     LessAt i j p = Some (bool_decide (value a < value b))).
Proof.
  split; [| split; [apply Reverse_Less_ordering | split]].
  - unfold Less. split; intros *; rewrite ?Z.ltb_ge, ?Z.ltb_lt; lia.
  - unfold Less. intros a b. rewrite !Z.ltb_ge. lia.
  - intros p i j a b Hi Hj. unfold LessAt, Less. rewrite Hi, Hj. f_equal.
    case_bool_decide; [now apply Z.ltb_lt | now apply Z.ltb_ge; lia].
Qed.

(** The first and the last of three uploads. *)
Lemma Swap_exchanges_witness :
  0 <= 0 < Len [mkPair "a" 10; mkPair "b" 50; mkPair "c" 30] /\
  0 <= 2 < Len [mkPair "a" 10; mkPair "b" 50; mkPair "c" 30] /\
  exists p',
    Swap 0 2 [mkPair "a" 10; mkPair "b" 50; mkPair "c" 30] = Some p' /\
    Swap 0 2 p' = Some [mkPair "a" 10; mkPair "b" 50; mkPair "c" 30].
Proof.
  assert (H0 : 0 <= 0 < Len [mkPair "a" 10; mkPair "b" 50; mkPair "c" 30])
    by (unfold Len; cbn; lia).
  assert (H2 : 0 <= 2 < Len [mkPair "a" 10; mkPair "b" 50; mkPair "c" 30])
    by (unfold Len; cbn; lia).
  split; [exact H0 | split; [exact H2 |]].
  destruct (proj1 (Swap_exchanges
                     [mkPair "a" 10; mkPair "b" 50; mkPair "c" 30] 0 2) H0 H2)
    as (p' & Hswap & _ & _ & _ & _ & _ & Hback).
  exists p'. split; [exact Hswap | exact Hback].
Defined.

(** Two uploads of the same size. *)
Lemma Less_is_an_ordering_witness :
  Less (mkPair "a" 10) (mkPair "b" 10) = false /\
  Less (mkPair "b" 10) (mkPair "a" 10) = false /\
  value (mkPair "a" 10) = value (mkPair "b" 10).
Proof.
  assert (Hab : Less (mkPair "a" 10) (mkPair "b" 10) = false) by reflexivity.
  assert (Hba : Less (mkPair "b" 10) (mkPair "a" 10) = false) by reflexivity.
  split; [exact Hab | split; [exact Hba |]].
  exact (proj1 (proj2 (proj2 Less_is_an_ordering)) _ _ Hab Hba).
Defined.

End PairlistSpec.

(** ** More on the routed handler *)

Module HandlerRoutes.

Import HandlerSpec.

Section Facts.

Context {UnroutedHandler Request Response : Type}.
Variable NewUnroutedHandler : Config -> result UnroutedHandler.

(** X15. The router of a handler has one registration per HTTP method at
    most, so which of them is tried first never matters; it has the POST,
    HEAD and PATCH registrations first, in this order, and five
    registrations at most. *)
Theorem NewHandler_one_handler_per_method config rHandler :
  NewHandler NewUnroutedHandler config = Ok rHandler ->
  NoDup (verb <$> routeHandler rHandler) /\
  take 3 (verb <$> routeHandler rHandler) = ["POST"; "HEAD"; "PATCH"]%string /\
  (length (routeHandler rHandler) <= 5)%nat.
Proof.
  intros Hnew. rewrite (NewHandler_routes _ _ _ Hnew).
  destruct (is_TerminaterDataStore (DataStore config)),
           (is_GetReaderDataStore (DataStore config)); cbn;
    (split; [| split; [reflexivity | lia]]);
    apply (bool_decide_unpack _); vm_compute; exact I.
Qed.

(** X16. A [*LimitedStore] has all the optional methods itself, so a
    handler over a limited store gets the DELETE and the GET endpoint
    whatever the wrapped store can do; a GET that reaches a limited store
    over a store without [GetReader] is answered [ErrNotImplemented] by
    it and changes nothing. *)
Theorem NewHandler_over_LimitedStore maxSize rHandler :
  NewHandler NewUnroutedHandler
    {| DataStore := Some limitedstore.methods; MaxSize := maxSize |}
    = Ok rHandler ->
  handlersFor "DELETE" (routeHandler rHandler) = [DelFile] /\
  handlersFor "GET" (routeHandler rHandler) = [GetFile] /\
  forall (B : Type) (ds : TerminaterDataStore B)
         (store : limitedstore.LimitedStore B) id,
    ds_GetReader ds = None ->
    limitedstore.GetReader ds id store = (Err ErrNotImplemented, store).
Proof.
  intros Hnew. rewrite (NewHandler_routes _ _ _ Hnew). cbn.
  split; [reflexivity | split; [reflexivity |]].
  intros B ds store id Hnone. unfold limitedstore.GetReader. now rewrite Hnone.
Qed.

(** X17. A [*MemoryLocker] has the methods of the [tusd.DataStore]
    interface and its own two, so a handler over a memory locker gets
    neither the DELETE nor the GET endpoint, whatever the wrapped store
    can do: its routes are those for POST, HEAD and PATCH. *)
Theorem NewHandler_over_MemoryLocker maxSize rHandler :
  NewHandler NewUnroutedHandler
    {| DataStore := Some memorylocker.methods; MaxSize := maxSize |}
    = Ok rHandler ->
  handlersFor "DELETE" (routeHandler rHandler) = [] /\
  handlersFor "GET" (routeHandler rHandler) = [] /\
  verb <$> routeHandler rHandler = ["POST"; "HEAD"; "PATCH"]%string.
Proof.
  intros Hnew. rewrite (NewHandler_routes _ _ _ Hnew). cbn.
  repeat split; reflexivity.
Qed.

End Facts.

Lemma NewHandler_one_handler_per_method_witness :
  NewHandler (fun _ => Ok ())
    (mkConfig (Some (mkMethodSet true true false false false)) 0)
    = Ok (mkHandler () (endpoints true true)) /\
  NoDup (verb <$> endpoints true true).
Proof.
  assert (Hnew : NewHandler (fun _ => Ok ())
                   (mkConfig (Some (mkMethodSet true true false false false)) 0)
                 = Ok (mkHandler () (endpoints true true))) by reflexivity.
  split; [exact Hnew |].
  exact (proj1 (NewHandler_one_handler_per_method (fun _ => Ok ()) _ _ Hnew)).
Defined.

Lemma NewHandler_over_LimitedStore_witness :
  NewHandler (fun _ => Ok ()) (mkConfig (Some limitedstore.methods) 0)
    = Ok (mkHandler () (endpoints true true)) /\
  handlersFor "GET" (endpoints true true) = [GetFile] /\
  (ds_GetReader (limitedstore.demoStore []) = None /\
   limitedstore.GetReader (limitedstore.demoStore []) "a"
     limitedstore.demoSmall = (Err ErrNotImplemented, limitedstore.demoSmall)).
Proof.
  assert (Hnew : NewHandler (fun _ => Ok ())
                   (mkConfig (Some limitedstore.methods) 0)
                 = Ok (mkHandler () (endpoints true true))) by reflexivity.
  pose proof (NewHandler_over_LimitedStore (fun _ => Ok ()) 0 _ Hnew)
    as (_ & Hget & Hreader).
  split; [exact Hnew | split; [exact Hget | split; [reflexivity |]]].
  exact (Hreader _ (limitedstore.demoStore []) limitedstore.demoSmall
           "a"%string eq_refl).
Defined.

Lemma NewHandler_over_MemoryLocker_witness :
  NewHandler (fun _ => Ok ()) (mkConfig (Some memorylocker.methods) 0)
    = Ok (mkHandler () (endpoints false false)) /\
  handlersFor "DELETE" (endpoints false false) = [].
Proof.
  assert (Hnew : NewHandler (fun _ => Ok ())
                   (mkConfig (Some memorylocker.methods) 0)
                 = Ok (mkHandler () (endpoints false false))) by reflexivity.
  split; [exact Hnew |].
  exact (proj1 (NewHandler_over_MemoryLocker (fun _ => Ok ()) 0 _ Hnew)).
Defined.

End HandlerRoutes.
